(** * MpdClient: the MPD control-protocol client of deno-gist

    A shallow embedding of [mpd-client.ts] (class [MpdClient]) and of
    [localeCompare] from [util.ts], followed by the properties of the
    protocol core: command encoding, response classification, field
    coercion, record assembly and the directory-listing order.

    Conventions of the embedding.
    - A JavaScript string is a [string]: a sequence of code units, here the
      code units below 256.  Every function on strings below is written for
      that range.
    - A JavaScript object used as a record ([MpdMessage]) is a finite map
      from property names to values; the order of the properties is not
      modelled.
    - A method that can throw returns a [Result].
    - The network is an explicit argument and every operation on it is
      logged in a trace of [IoEvent]s.
    - The parsers are functions of their lines; module [Heap] gives them a
      second time on an explicit store of objects, where a result is a
      reference, and the two are proved to agree. *)

From Stdlib Require Import ZArith List String Ascii Bool Lia.
From Stdlib Require Import DecimalString DecimalPos DecimalZ.
From stdpp Require Import base option list gmap strings.

Local Open Scope string_scope.
Local Open Scope Z_scope.

(** ** Strings of the host language *)

Module Js.

Definition code (c : ascii) : Z := Z.of_N (N_of_ascii c).

Definition between (lo hi : Z) (c : ascii) : bool :=
  (lo <=? code c) && (code c <=? hi).

(** The class [\s] of a regular expression, and the white space that
    [parseInt] and [parseFloat] skip: TAB, LF, VT, FF, CR, SP, NBSP. *)
Definition isWhiteSpace (c : ascii) : bool :=
  between 9 13 c || (code c =? 32) || (code c =? 160).

Definition isDigit (c : ascii) : bool := between 48 57 c.

Definition isLatinLetter (c : ascii) : bool :=
  between 65 90 c || between 97 122 c.

Definition len (s : string) : Z := Z.of_nat (String.length s).

(** [s.startsWith(p)] *)
Fixpoint startsWith (p s : string) : bool :=
  match p, s with
  | EmptyString, _ => true
  | String a p', String b s' => Ascii.eqb a b && startsWith p' s'
  | String _ _, EmptyString => false
  end.

Fixpoint indexOf_from (needle s : string) (i : Z) : Z :=
  if startsWith needle s then i
  else match s with
       | EmptyString => -1
       | String _ s' => indexOf_from needle s' (i + 1)
       end.

(** [s.indexOf(needle)]: the first position of [needle], or [-1]. *)
Definition indexOf (needle s : string) : Z := indexOf_from needle s 0.

Definition clamp (s : string) (i : Z) : Z := Z.min (Z.max i 0) (len s).

(** [s.substring(start, stop)]: both ends are clamped to the string and
    swapped when out of order. *)
Definition substring (s : string) (start stop : Z) : string :=
  let a := clamp s start in
  let b := clamp s stop in
  let from := Z.min a b in
  let to := Z.max a b in
  String.substring (Z.to_nat from) (Z.to_nat (to - from)) s.

(** [s.substring(start)] *)
Definition substring_from (s : string) (start : Z) : string :=
  substring s start (len s).

Definition lowerChar (c : ascii) : ascii :=
  if between 65 90 c
     || (between 192 222 c && negb (code c =? 215))
  then ascii_of_N (Z.to_N (code c + 32))
  else c.

(** [s.toLowerCase()], on the characters of Latin-1 that a string holds
    here; each of them lower-cases to one character. *)
Fixpoint toLowerCase (s : string) : string :=
  match s with
  | EmptyString => EmptyString
  | String c s' => String (lowerChar c) (toLowerCase s')
  end.

Definition snoc (s : string) (c : ascii) : string :=
  s +:+ String c EmptyString.

(** [s.split(/:\s/)]: the scan of the pieces between the matches of a
    colon followed by one white-space character; [cur] is the piece
    being read. *)
Fixpoint split_colon_space_from (cur s : string) : list string :=
  match s with
  | EmptyString => [cur]
  | String c s' =>
      match s' with
      | String d s'' =>
          if Ascii.eqb c ":" && isWhiteSpace d
          then cur :: split_colon_space_from EmptyString s''
          else split_colon_space_from (snoc cur c) s'
      | EmptyString => [snoc cur c]
      end
  end.

Definition split_colon_space (s : string) : list string :=
  split_colon_space_from EmptyString s.

(** [s.split(":")] *)
Fixpoint split_colon_from (cur s : string) : list string :=
  match s with
  | EmptyString => [cur]
  | String c s' =>
      if Ascii.eqb c ":"
      then cur :: split_colon_from EmptyString s'
      else split_colon_from (snoc cur c) s'
  end.

Definition split_colon (s : string) : list string :=
  split_colon_from EmptyString s.

(** A string is falsy exactly when it is empty. *)
Definition truthy (s : string) : bool :=
  match s with EmptyString => false | _ => true end.

Definition dquote : string := String "034"%char EmptyString.

End Js.

(** ** Numbers read from text *)

(** A number as [parseInt] and [parseFloat] read it: [Dec z k] is the
    decimal [z / 10^k], kept in lowest terms ([k = 0], or [z] is not a
    multiple of ten), so that [10] and [10.0] are the same value.  The host
    rounds the numeral to the nearest double afterwards; integers up to
    2^53 are not changed by that.  The sign of a zero is not kept. *)
Inductive Number : Type :=
| NaN
| Infinity (negative : bool)
| Dec (z : Z) (k : nat).

Abbreviation Int z := (Dec z 0).

Module Num.

Fixpoint trimStart (s : string) : string :=
  match s with
  | String c s' => if Js.isWhiteSpace c then trimStart s' else s
  | EmptyString => EmptyString
  end.

(** An optional sign in front of a numeral. *)
Definition takeSign (s : string) : bool * string :=
  match s with
  | String c r =>
      if Ascii.eqb c "-" then (true, r)
      else if Ascii.eqb c "+" then (false, r)
      else (false, s)
  | EmptyString => (false, s)
  end.

Definition decimalDigit (c : ascii) : option Z :=
  if Js.isDigit c then Some (Js.code c - 48) else None.

Definition hexDigit (c : ascii) : option Z :=
  if Js.isDigit c then Some (Js.code c - 48)
  else if Js.between 97 102 c then Some (Js.code c - 87)
  else if Js.between 65 70 c then Some (Js.code c - 55)
  else None.

(** The longest run of digits at the front of [s], and what follows. *)
Fixpoint takeDigits (digit : ascii -> option Z) (s : string)
  : list Z * string :=
  match s with
  | String c s' =>
      match digit c with
      | Some d => let '(ds, r) := takeDigits digit s' in (d :: ds, r)
      | None => ([], s)
      end
  | EmptyString => ([], s)
  end.

Definition valueOf (radix : Z) (ds : list Z) : Z :=
  fold_left (fun acc d => acc * radix + d) ds 0.

Definition signed (negative : bool) (z : Z) : Z :=
  if negative then - z else z.

(** [parseInt(s)] with no radix: leading white space, a sign, a [0x]
    prefix for base sixteen, then the longest run of digits. *)
Definition parseInt_string (input : string) : Number :=
  let '(negative, s) := takeSign (trimStart input) in
  let '(radix, digit, s) :=
    if Js.startsWith "0x" s || Js.startsWith "0X" s
    then (16, hexDigit, Js.substring_from s 2)
    else (10, decimalDigit, s) in
  match takeDigits digit s with
  | ([], _) => NaN
  | (ds, _) => Int (signed negative (valueOf radix ds))
  end.

Fixpoint normalize (z : Z) (k : nat) : Number :=
  match k with
  | O => Int z
  | S k' => if z mod 10 =? 0 then normalize (z / 10) k' else Dec z k
  end.

(** The exponent part [e±ddd]; a part without digits is not read. *)
Definition takeExponent (s : string) : Z :=
  match s with
  | String c r =>
      if Ascii.eqb c "e" || Ascii.eqb c "E" then
        let '(negative, r) := takeSign r in
        match takeDigits decimalDigit r with
        | ([], _) => 0
        | (ds, _) => signed negative (valueOf 10 ds)
        end
      else 0
  | EmptyString => 0
  end.

(** [parseFloat(s)]: leading white space, then the longest prefix that
    is a decimal literal. *)
Definition parseFloat_string (input : string) : Number :=
  let '(negative, s) := takeSign (trimStart input) in
  if Js.startsWith "Infinity" s then Infinity negative
  else
    let '(ip, r1) := takeDigits decimalDigit s in
    let '(fp, r2) :=
      match r1 with
      | String c r =>
          if Ascii.eqb c "." then takeDigits decimalDigit r else ([], r1)
      | EmptyString => ([], r1)
      end in
    match (ip ++ fp)%list with
    | [] => NaN
    | ds =>
        let m := signed negative (valueOf 10 ds) in
        let scale := Z.of_nat (length fp) - takeExponent r2 in
        if scale <=? 0 then Int (m * 10 ^ (- scale))
        else normalize m (Z.to_nat scale)
    end.

(** The argument of [parseInt] and [parseFloat] is first turned into a
    string; [undefined] becomes the text "undefined". *)
Definition toString (v : option string) : string :=
  match v with Some s => s | None => "undefined" end.

Definition parseInt (v : option string) : Number :=
  parseInt_string (toString v).

Definition parseFloat (v : option string) : Number :=
  parseFloat_string (toString v).

End Num.

(** ** Values, records and failures *)

(** The values a record holds.  [VDate text] is the [Date] object built by
    [new Date(text)]; the reading of the text is the host's.  A property
    can also hold [undefined]. *)
Inductive Value : Type :=
| VUndefined
| VString (s : string)
| VNumber (n : Number)
| VDate (text : option string).

(** [MpdMessage = Record<string, string | number | boolean | Date>] *)
Abbreviation MpdMessage := (gmap string Value).

Inductive JsError : Type :=
| TypeError (reading : string)  (* a property read on [undefined] *)
| Error (message : string)      (* [new Error(message)] *)
| ConnectError.                 (* [Deno.connect] rejected *)

Inductive Result (A : Type) : Type :=
| Ok (a : A)
| Throw (e : JsError).

Arguments Ok {A} a.
Arguments Throw {A} e.

Definition bind {A B : Type} (r : Result A) (f : A -> Result B) : Result B :=
  match r with
  | Ok a => f a
  | Throw e => Throw e
  end.

Notation "'let*' x ':=' r 'in' k" := (bind r (fun x => k))
  (at level 10, x pattern, r at level 100, k at level 200).

(** JavaScript truthiness of a property read: an absent property reads as
    [undefined]. *)
Definition truthy (v : option Value) : bool :=
  match v with
  | None | Some VUndefined => false
  | Some (VString s) => Js.truthy s
  | Some (VNumber NaN) => false
  | Some (VNumber (Infinity _)) => true
  | Some (VNumber (Dec z _)) => negb (z =? 0)
  | Some (VDate _) => true
  end.

(** [o[k] = v] on a plain object.  The name [__proto__] is the accessor
    inherited from [Object.prototype]: assigning a string, a number or
    [undefined] through it changes nothing and creates no property. *)
Definition setProp (k : string) (v : Value) (o : MpdMessage) : MpdMessage :=
  if String.eqb k "__proto__" then o else <[k := v]> o.

(** [Object.assign(target, source)]: every property of [source] is written
    to [target]. *)
Definition objectAssign (target source : MpdMessage) : MpdMessage :=
  source ∪ target.

Definition ofOption (v : option string) : Value :=
  match v with Some s => VString s | None => VUndefined end.

Definition oneOf (k : string) (ks : list string) : bool :=
  existsb (String.eqb k) ks.

(** ** The client *)

Record MpdClient : Type := { hostname : string; port : Z }.

(** [enum MpdSignal] *)
Module MpdSignal.
Definition VERSION : string := "OK MPD".
Definition END : string := "OK".
Definition ERROR : string := "ACK".
End MpdSignal.

(** The keys of the first arm of the [switch] in [parseMessageLine]. *)
Definition integerKeys : list string :=
  ["Id"; "Pos"; "volume"; "repeat"; "random"; "single"; "consume";
   "playlist"].

(** The source keys with an arm of their own in the [switch]. *)
Definition tableKeys : list string :=
  (integerKeys ++
   ["directory"; "Last-Modified"; "Time"; "song"; "songid"; "time";
    "elapsed"; "bitrate"; "audio"])%list.

(** [const [key, value] = messageLine.split(/:\s/)]: the first two pieces;
    [value] is [undefined] when there is one piece only. *)
Definition keyValue (messageLine : string) : string * option string :=
  match Js.split_colon_space messageLine with
  | key :: value :: _ => (key, Some value)
  | [key] => (key, None)
  | [] => (EmptyString, None)
  end.

(** [parseMessageLine].  The statement [if (!messageLine) result;] of the
    source evaluates [result] and goes on: it returns nothing, so it has no
    counterpart here. *)
Definition parseMessageLine (this : MpdClient) (messageLine : string)
  : Result MpdMessage :=
  let result : MpdMessage := ∅ in
  let '(key, value) := keyValue messageLine in
  if oneOf key integerKeys then
    Ok (setProp (Js.toLowerCase key) (VNumber (Num.parseInt value)) result)
  else if String.eqb key "directory" then
    Ok (setProp "isDir" (VNumber (Int 1))
          (setProp "file" (ofOption value) result))
  else if String.eqb key "Last-Modified" then
    Ok (setProp "lastModified" (VDate value) result)
  else if String.eqb key "Time" then
    Ok (setProp "duration" (VNumber (Num.parseFloat value)) result)
  else if String.eqb key "song" then
    Ok (setProp "songPos" (VNumber (Num.parseInt value)) result)
  else if String.eqb key "songid" then
    Ok (setProp "songId" (VNumber (Num.parseInt value)) result)
  else if String.eqb key "time" then
    match value with
    | None => Throw (TypeError "split")
    | Some v =>
        let time := Js.split_colon v in
        Ok (setProp "duration" (VNumber (Num.parseFloat (time !! 1%nat)))
              result)
    end
  else if String.eqb key "elapsed" then
    Ok (setProp "elapsed" (VNumber (Num.parseFloat value)) result)
  else if String.eqb key "bitrate" then
    Ok (setProp "bitRate" (VNumber (Num.parseInt value)) result)
  else if String.eqb key "audio" then
    match value with
    | None => Throw (TypeError "split")
    | Some v =>
        let audio := Js.split_colon v in
        Ok (setProp "sampleBits" (VNumber (Num.parseInt (audio !! 1%nat)))
              (setProp "sampleRate" (VNumber (Num.parseInt (audio !! 0%nat)))
                 result))
    end
  else
    Ok (setProp (Js.toLowerCase key) (ofOption value) result).

(** [parseMessageObject]: one record, every line merged into it in turn. *)
Fixpoint parseMessageObject_loop (this : MpdClient) (result : MpdMessage)
  (messageLines : list string) : Result MpdMessage :=
  match messageLines with
  | [] => Ok result
  | line :: rest =>
      let* message := parseMessageLine this line in
      parseMessageObject_loop this (objectAssign result message) rest
  end.

Definition parseMessageObject (this : MpdClient) (messageLines : list string)
  : Result MpdMessage :=
  parseMessageObject_loop this ∅ messageLines.

(** The variables of the loop of [parseMessageList].  [message] is [null]
    or a reference to an object that is also an element of [result]: the
    reference is the position of that element, and a write through it is a
    write to the element. *)
Record ListState : Type :=
  { result : list MpdMessage; message : option nat }.

Definition parseMessageList_step (this : MpdClient) (delimiter : string)
  (st : ListState) (line : string) : Result ListState :=
  let st :=
    if Js.startsWith delimiter line
    then {| result := (result st ++ [∅])%list;
            message := Some (length (result st)) |}
    else st in
  match message st with
  | Some ref =>
      let* _message := parseMessageLine this line in
      Ok {| result := alter (fun o => objectAssign o _message) ref (result st);
            message := message st |}
  | None => Ok st
  end.

Fixpoint parseMessageList_loop (this : MpdClient) (delimiter : string)
  (st : ListState) (messageLines : list string) : Result ListState :=
  match messageLines with
  | [] => Ok st
  | line :: rest =>
      let* st' := parseMessageList_step this delimiter st line in
      parseMessageList_loop this delimiter st' rest
  end.

(** [parseMessageList].  [messageLines[0]] is [undefined] for an empty
    array, and reading [substring] from it throws. *)
Definition parseMessageList (this : MpdClient) (messageLines : list string)
  : Result (list MpdMessage) :=
  match messageLines !! 0%nat with
  | None => Throw (TypeError "substring")
  | Some first =>
      let delimiter := Js.substring first 0 (Js.indexOf ":" first + 1) in
      let* st := parseMessageList_loop this delimiter
                   {| result := []; message := None |} messageLines in
      Ok (result st)
  end.

(** ** The connection *)

(** What the peer does for one call: it refuses the connection, or accepts
    it and sends these lines (as [TextDecoderStream] and [TextLineStream]
    deliver them) before closing. *)
Inductive Network : Type :=
| Refused
| Accepted (lines : list string).

Inductive IoEvent : Type :=
| EvConnect (hostname : string) (port : Z)  (* [Deno.connect] *)
| EvWrite (data : list Byte.byte)           (* one [conn.write] *)
| EvRead (line : string).                   (* one line taken by the loop *)

(** An action on the connection: it extends the trace and returns or
    throws. *)
Definition Io (A : Type) : Type := list IoEvent -> Result A * list IoEvent.

Definition ret {A : Type} (a : A) : Io A := fun tr => (Ok a, tr).

Definition raise {A : Type} (e : JsError) : Io A := fun tr => (Throw e, tr).

Definition emit (ev : IoEvent) : Io unit := fun tr => (Ok tt, (tr ++ [ev])%list).

Definition lift {A : Type} (r : Result A) : Io A := fun tr => (r, tr).

Definition bindIo {A B : Type} (m : Io A) (f : A -> Io B) : Io B :=
  fun tr =>
    match m tr with
    | (Ok a, tr') => f a tr'
    | (Throw e, tr') => (Throw e, tr')
    end.

Notation "'do' x <- m ; k" := (bindIo m (fun x => k))
  (at level 10, x name, m at level 100, k at level 200).

Notation "'exec' m ; k" := (bindIo m (fun _ => k))
  (at level 10, m at level 100, k at level 200).

(** A call starts on an empty trace. *)
Definition run {A : Type} (m : Io A) : Result A * list IoEvent := m [].

(** [textEncoder.encode(s)]: UTF-8, one byte for a code unit below
    128 and two bytes for the others. *)
Fixpoint textEncoder_encode (s : string) : list Byte.byte :=
  match s with
  | EmptyString => []
  | String c s' =>
      let n := Js.code c in
      if n <? 128 then byte_of_ascii c :: textEncoder_encode s'
      else byte_of_ascii (ascii_of_N (Z.to_N (192 + n / 64)))
           :: byte_of_ascii (ascii_of_N (Z.to_N (128 + n mod 64)))
           :: textEncoder_encode s'
  end.

Definition newline : string := String "010"%char EmptyString.

(** The optional argument of a command.  A number argument is an integer
    (the API passes song ids and 0/1 flags); in a template literal it
    prints as its decimal numeral (the host does so up to [10 ^ 21], and
    holds an integer exactly up to [2 ^ 53]). *)
Inductive Argument : Type :=
| ArgString (s : string)
| ArgNumber (n : Z).

Definition argumentTruthy (argument : option Argument) : bool :=
  match argument with
  | None => false
  | Some (ArgString s) => Js.truthy s
  | Some (ArgNumber n) => negb (n =? 0)
  end.

Definition argumentText (a : Argument) : string :=
  match a with
  | ArgString s => s
  | ArgNumber n => DecimalString.NilEmpty.string_of_int (Z.to_int n)
  end.

(** [argument ? `${command} "${argument}"` : command] *)
Definition commandLine (command : string) (argument : option Argument)
  : string :=
  match argument with
  | Some a =>
      if argumentTruthy argument
      then command +:+ " " +:+ Js.dquote +:+ argumentText a +:+ Js.dquote
      else command
  | None => command
  end.

(** What [sendCommand] returns: [MpdMessage | MpdMessage[]]. *)
Inductive Reply : Type :=
| ReplyObject (m : MpdMessage)
| ReplyList (l : list MpdMessage).

(** [getConnection] *)
Definition getConnection (this : MpdClient) (net : Network)
  : Io (list string) :=
  exec emit (EvConnect (hostname this) (port this)) ;
  match net with
  | Refused => raise ConnectError
  | Accepted lines => ret lines
  end.

(** The [for await] loop of [sendCommand] over the lines of the
    connection; [result] is the array of data lines pushed so far. *)
Fixpoint readLines (lines : list string) (result : list string)
  : Io (list string) :=
  match lines with
  | [] => ret result
  | line :: rest =>
      exec emit (EvRead line) ;
      if String.eqb line MpdSignal.END then ret result
      else if Js.startsWith MpdSignal.VERSION line then readLines rest result
      else if Js.startsWith MpdSignal.ERROR line then
        raise (Error (Js.substring_from line (Js.len MpdSignal.ERROR + 1)))
      else readLines rest (result ++ [line])%list
  end.

(** [sendCommand] *)
Definition sendCommand (this : MpdClient) (net : Network) (command : string)
  (argument : option Argument) : Io Reply :=
  let commandLine := commandLine command argument in
  do conn <- getConnection this net ;
  exec emit (EvWrite (textEncoder_encode (commandLine +:+ newline))) ;
  do result <- readLines conn [] ;
  if String.eqb command "playlistinfo" || String.eqb command "lsinfo"
  then do l <- lift (parseMessageList this result) ; ret (ReplyList l)
  else do m <- lift (parseMessageObject this result) ; ret (ReplyObject m).

(** The methods with no result: [await this.sendCommand(...)]. *)
Definition command_ (this : MpdClient) (net : Network) (command : string)
  (argument : option Argument) : Io unit :=
  exec sendCommand this net command argument ; ret tt.

Definition getStatus this net : Io Reply := sendCommand this net "status" None.
Definition getCurrentSong this net : Io Reply :=
  sendCommand this net "currentsong" None.
Definition getPlaylist this net : Io Reply :=
  sendCommand this net "playlistinfo" None.
Definition playId this net (id : Z) : Io unit :=
  command_ this net "playid" (Some (ArgNumber id)).
Definition play this net : Io unit := command_ this net "play" None.
Definition pause this net : Io unit := command_ this net "pause" None.
Definition stop this net : Io unit := command_ this net "stop" None.
Definition next this net : Io unit := command_ this net "next" None.
Definition previous this net : Io unit := command_ this net "previous" None.
Definition setRepeat this net (state : Z) : Io unit :=
  command_ this net "repeat" (Some (ArgNumber state)).
Definition setSingle this net (state : Z) : Io unit :=
  command_ this net "single" (Some (ArgNumber state)).
Definition setRandom this net (state : Z) : Io unit :=
  command_ this net "random" (Some (ArgNumber state)).
Definition removeSong this net (id : Z) : Io unit :=
  command_ this net "deleteid" (Some (ArgNumber id)).
Definition updateLibrary this net : Io unit := command_ this net "update" None.
Definition clearPlaylist this net : Io unit := command_ this net "clear" None.

(** [addSong] *)
Definition addSong (this : MpdClient) (net : Network) (path : string)
  : Io unit :=
  if Js.indexOf "+" path >=? 0
  then raise (Error ("The path cannot contain a " +:+ Js.dquote +:+ "+"
                     +:+ Js.dquote +:+ " sign"))
  else command_ this net "add" (Some (ArgString path)).

(** ** The directory listing and its order *)

(** [localeCompare] of [util.ts]. *)
Module Util.

(** The first class of [regExp]: white space and the listed signs. *)
Definition isPunctuation (c : ascii) : bool :=
  Js.isWhiteSpace c
  || existsb (Ascii.eqb c)
       (list_ascii_of_string "~!@#$%^&*()-_+={}[]|<>,.?/\").

(** [/./] matches every character but a line terminator. *)
Definition isDot (c : ascii) : bool :=
  negb ((Js.code c =? 10) || (Js.code c =? 13)).

(** [regExp.findIndex(v => v.test(c))] *)
Definition regExpIndex (c : ascii) : Z :=
  if isPunctuation c then 0
  else if Js.isDigit c then 1
  else if Js.isLatinLetter c then 2
  else if isDot c then 3
  else -1.

Definition digitOf (c : ascii) : Z :=
  match Num.decimalDigit c with Some d => d | None => 0 end.

Section LocaleCompare.

(** [aChar.localeCompare(bChar, locale)]: the collation of the host. *)
Variable hostCompare : ascii -> ascii -> string -> Z.

(** The body of the loop for two characters that differ. *)
Definition compareChars (aChar bChar : ascii) (locale : string) : Z :=
  let aIndex := regExpIndex aChar in
  let bIndex := regExpIndex bChar in
  if negb (aIndex =? bIndex) then aIndex - bIndex
  else if aIndex =? 1 then digitOf aChar - digitOf bChar
  else if aIndex =? 2 then
    if Js.code (Js.lowerChar aChar) <? Js.code (Js.lowerChar bChar)
    then -1 else 1
  else if aIndex =? 3 then hostCompare aChar bChar locale
  else if Js.code aChar <? Js.code bChar then -1 else 1.

(** The loop runs over the common positions from the left, so it is
    written by recursion on both strings; when one of them is
    exhausted the difference of the lengths that remain is the
    difference of the lengths. *)
Fixpoint localeCompare_with (aStr bStr locale : string) : Z :=
  match aStr, bStr with
  | String aChar aStr', String bChar bStr' =>
      if Ascii.eqb aChar bChar then localeCompare_with aStr' bStr' locale
      else compareChars aChar bChar locale
  | _, _ => Js.len aStr - Js.len bStr
  end.

(** [localeCompare(aStr, bStr)] with the default [locale = "zh"]. *)
Definition localeCompare (aStr bStr : string) : Z :=
  localeCompare_with aStr bStr "zh".

End LocaleCompare.

End Util.

Section Library.

Variable hostCompare : ascii -> ascii -> string -> Z.

(** [Array.prototype.sort(comparefn)] of the host. *)
Variable sort :
  (MpdMessage -> MpdMessage -> Result Z) ->
  list MpdMessage -> Result (list MpdMessage).

(** [m.file as string]: the cast checks nothing.  The parser stores a
    string or [undefined] under [file]; only a string has a [length]. *)
Definition fileOf (m : MpdMessage) : Result string :=
  match m !! "file" with
  | Some (VString s) => Ok s
  | _ => Throw (TypeError "length")
  end.

(** The comparator given to [sort] in [getLibrary]. *)
Definition libraryCompare (a b : MpdMessage) : Result Z :=
  if truthy (a !! "isDir") && negb (truthy (b !! "isDir")) then Ok (-1)
  else
    let* aStr := fileOf a in
    let* bStr := fileOf b in
    Ok (Util.localeCompare hostCompare aStr bStr).

(** [getLibrary] *)
Definition getLibrary (this : MpdClient) (net : Network) (path : string)
  : Io (list MpdMessage) :=
  do reply <- sendCommand this net "lsinfo" (Some (ArgString path)) ;
  match reply with
  | ReplyList list => lift (sort libraryCompare list)
  | ReplyObject _ => raise (TypeError "sort")
  end.

End Library.

(** An implementation of the host's [sort]: insertion from the left, each
    new element placed in front of the first one it compares below. *)
Module Host.

Section Sort.
Context {A : Type}.
Variable comparefn : A -> A -> Result Z.

Fixpoint insert (pivot : A) (sorted : list A) : Result (list A) :=
  match sorted with
  | [] => Ok [pivot]
  | element :: rest =>
      let* order := comparefn pivot element in
      if order <? 0 then Ok (pivot :: element :: rest)
      else let* rest' := insert pivot rest in Ok (element :: rest')
  end.

Fixpoint sort_from (sorted rest : list A) : Result (list A) :=
  match rest with
  | [] => Ok sorted
  | pivot :: rest' =>
      let* sorted' := insert pivot sorted in sort_from sorted' rest'
  end.

Definition sort (l : list A) : Result (list A) := sort_from [] l.
End Sort.

(** A collation of single characters by code unit. *)
Definition compareByCode (a b : ascii) (locale : string) : Z :=
  Js.code a - Js.code b.

End Host.

(** ** Vocabulary of the properties *)

(** Whether [/:\s/] matches somewhere in [s]. *)
Fixpoint hasSeparator (s : string) : bool :=
  match s with
  | EmptyString => false
  | String c s' =>
      match s' with
      | String d _ => (Ascii.eqb c ":" && Js.isWhiteSpace d) || hasSeparator s'
      | EmptyString => false
      end
  end.

(** The data of the [conn.write] calls of a trace, in order. *)
Fixpoint writes (tr : list IoEvent) : list (list Byte.byte) :=
  match tr with
  | [] => []
  | EvWrite data :: tr' => data :: writes tr'
  | _ :: tr' => writes tr'
  end.

(** A [sort] that settles an array of two elements by one call
    [comparefn(second, first)], the later element being the pivot, and
    puts the pivot first when the answer is negative: what V8, the engine
    of Deno, does. *)
Definition pivot_first_on_pairs
  (sort : (MpdMessage -> MpdMessage -> Result Z) ->
          list MpdMessage -> Result (list MpdMessage)) : Prop :=
  forall comparefn x y,
    sort comparefn [x; y] =
    (let* order := comparefn y x in
     Ok (if order <? 0 then [y; x] else [x; y])).

(** A [sort] that settles an array of two elements by one call
    [comparefn(first, second)] and exchanges the two when the answer is
    positive: the other common convention. *)
Definition first_kept_on_pairs
  (sort : (MpdMessage -> MpdMessage -> Result Z) ->
          list MpdMessage -> Result (list MpdMessage)) : Prop :=
  forall comparefn x y,
    sort comparefn [x; y] =
    (let* order := comparefn x y in
     Ok (if 0 <? order then [y; x] else [x; y])).

(** A line of the response that does not end the loop of [sendCommand]. *)
Definition continues (line : string) : Prop :=
  line <> MpdSignal.END /\ Js.startsWith MpdSignal.ERROR line = false.

Definition aClient : MpdClient := {| hostname := "10.0.0.2"; port := 6600 |}.

Definition fileA : MpdMessage := {[ "file" := VString "a" ]}.

Definition dirB : MpdMessage :=
  {[ "file" := VString "b"; "isDir" := VNumber (Int 1) ]}.

(** ** The parsers on the store

    The same three methods once more, with the objects they create and
    mutate kept in an explicit store: every [{}] and [[]] of the source is
    an allocation, every assignment to a property and every
    [Object.assign] or [push] is a write to the object a reference points
    to, and [this] is a reference like the others.  A store is the list of
    the objects allocated so far, a reference is a position in it, and an
    allocation appends.  Strings and numbers are values; a [Date] is kept
    by the text it was built from.  The regular expression of
    [parseMessageLine] has no [g] or [y] flag, so [split] reads and writes
    no [lastIndex]. *)

Module Heap.

Abbreviation loc := nat.

Inductive Obj : Type :=
| ORecord (fields : MpdMessage)   (* a plain object with its properties *)
| OArray (items : list loc)       (* an array of references to objects *)
| OClient (client : MpdClient).   (* an instance of [MpdClient] *)

Abbreviation Store := (list Obj).

(** A computation on the store: it returns or throws, and leaves the store
    as it made it. *)
Definition St (A : Type) : Type := Store -> Result A * Store.

Definition ret {A : Type} (a : A) : St A := fun h => (Ok a, h).

Definition throw {A : Type} (e : JsError) : St A := fun h => (Throw e, h).

Definition bindSt {A B : Type} (m : St A) (f : A -> St B) : St B :=
  fun h =>
    match m h with
    | (Ok a, h') => f a h'
    | (Throw e, h') => (Throw e, h')
    end.

Notation "'heap' x <- m ; k" := (bindSt m (fun x => k))
  (at level 10, x name, m at level 100, k at level 200).

Notation "'also' m ; k" := (bindSt m (fun _ => k))
  (at level 10, m at level 100, k at level 200).

(** [{}], [[]]: a new object, at the next free position. *)
Definition new (o : Obj) : St loc :=
  fun h => (Ok (length h), (h ++ [o])%list).

Definition onRecord (f : MpdMessage -> MpdMessage) (o : Obj) : Obj :=
  match o with ORecord fields => ORecord (f fields) | _ => o end.

Definition onArray (f : list loc -> list loc) (o : Obj) : Obj :=
  match o with OArray items => OArray (f items) | _ => o end.

(** [target[k] = v] *)
Definition setField (target : loc) (k : string) (v : Value) : St unit :=
  fun h => (Ok tt, alter (onRecord (setProp k v)) target h).

(** [Object.assign(target, source)] *)
Definition assign (target source : loc) : St unit :=
  fun h =>
    match h !! source with
    | Some (ORecord fields) =>
        (Ok tt, alter (onRecord (fun o => objectAssign o fields)) target h)
    | _ => (Ok tt, h)
    end.

(** [arr.push(item)] *)
Definition push (arr item : loc) : St unit :=
  fun h => (Ok tt, alter (onArray (fun items => (items ++ [item])%list)) arr h).

(** [parseMessageLine] *)
Definition parseMessageLine (this : loc) (messageLine : string) : St loc :=
  heap result <- new (ORecord ∅) ;
  let '(key, value) := keyValue messageLine in
  if oneOf key integerKeys then
    also setField result (Js.toLowerCase key) (VNumber (Num.parseInt value)) ;
    ret result
  else if String.eqb key "directory" then
    also setField result "file" (ofOption value) ;
    also setField result "isDir" (VNumber (Int 1)) ;
    ret result
  else if String.eqb key "Last-Modified" then
    also setField result "lastModified" (VDate value) ;
    ret result
  else if String.eqb key "Time" then
    also setField result "duration" (VNumber (Num.parseFloat value)) ;
    ret result
  else if String.eqb key "song" then
    also setField result "songPos" (VNumber (Num.parseInt value)) ;
    ret result
  else if String.eqb key "songid" then
    also setField result "songId" (VNumber (Num.parseInt value)) ;
    ret result
  else if String.eqb key "time" then
    match value with
    | None => throw (TypeError "split")
    | Some v =>
        let time := Js.split_colon v in
        also setField result "duration"
               (VNumber (Num.parseFloat (time !! 1%nat))) ;
        ret result
    end
  else if String.eqb key "elapsed" then
    also setField result "elapsed" (VNumber (Num.parseFloat value)) ;
    ret result
  else if String.eqb key "bitrate" then
    also setField result "bitRate" (VNumber (Num.parseInt value)) ;
    ret result
  else if String.eqb key "audio" then
    match value with
    | None => throw (TypeError "split")
    | Some v =>
        let audio := Js.split_colon v in
        also setField result "sampleRate"
               (VNumber (Num.parseInt (audio !! 0%nat))) ;
        also setField result "sampleBits"
               (VNumber (Num.parseInt (audio !! 1%nat))) ;
        ret result
    end
  else
    also setField result (Js.toLowerCase key) (ofOption value) ;
    ret result.

(** The [for] loop of [parseMessageObject]. *)
Fixpoint parseMessageObject_loop (this result : loc)
  (messageLines : list string) : St unit :=
  match messageLines with
  | [] => ret tt
  | line :: rest =>
      heap message <- parseMessageLine this line ;
      also assign result message ;
      parseMessageObject_loop this result rest
  end.

(** [parseMessageObject] *)
Definition parseMessageObject (this : loc) (messageLines : list string)
  : St loc :=
  heap result <- new (ORecord ∅) ;
  also parseMessageObject_loop this result messageLines ;
  ret result.

(** The [for] loop of [parseMessageList]; [message] is [null] or the
    reference that was pushed last. *)
Fixpoint parseMessageList_loop (this : loc) (delimiter : string)
  (result : loc) (message : option loc) (messageLines : list string)
  : St unit :=
  match messageLines with
  | [] => ret tt
  | line :: rest =>
      heap message <-
        (if Js.startsWith delimiter line
         then heap fresh <- new (ORecord ∅) ;
              also push result fresh ;
              ret (Some fresh)
         else ret message) ;
      also (match message with
            | Some target =>
                heap _message <- parseMessageLine this line ;
                assign target _message
            | None => ret tt
            end) ;
      parseMessageList_loop this delimiter result message rest
  end.

(** [parseMessageList] *)
Definition parseMessageList (this : loc) (messageLines : list string)
  : St loc :=
  match messageLines !! 0%nat with
  | None => throw (TypeError "substring")
  | Some first =>
      let delimiter := Js.substring first 0 (Js.indexOf ":" first + 1) in
      heap result <- new (OArray []) ;
      also parseMessageList_loop this delimiter result None messageLines ;
      ret result
  end.

(** What a reference to a record, or to an array of records, stands for
    in a store. *)
Definition record (h : Store) (ref : loc) : option MpdMessage :=
  match h !! ref with Some (ORecord fields) => Some fields | _ => None end.

Definition records (h : Store) (ref : loc) : option (list MpdMessage) :=
  match h !! ref with
  | Some (OArray items) => mapM (record h) items
  | _ => None
  end.

(** The output of a run: the value the returned reference stands for in
    the store the run leaves, or the error thrown. *)
Definition output {A : Type} (read : Store -> loc -> option A)
  (run : Result loc * Store) : Result (option A) :=
  match fst run with
  | Ok ref => Ok (read (snd run) ref)
  | Throw e => Throw e
  end.

End Heap.

(** ** Other functions of [util.ts] *)

Definition isLowerLetter (c : ascii) : bool := Js.between 97 122 c.

(** [L.toUpperCase()] for the characters a match of [/( |^)[a-z]/] is made
    of: a letter [a]..[z] becomes its capital, a space stays. *)
Definition upperLetter (c : ascii) : ascii :=
  if isLowerLetter c then ascii_of_N (Z.to_N (Js.code c - 32)) else c.

(** [s.replace(/( |^)[a-z]/g, (L) => L.toUpperCase())]: the scan from the
    left; [atStart] tells whether the position is the start of the string.
    At a position the first alternative takes a space and the letter after
    it, the second one a letter at the start of the string; after a match
    the scan goes on behind it. *)
Fixpoint replaceInitials (atStart : bool) (s : string) : string :=
  match s with
  | EmptyString => EmptyString
  | String c s' =>
      if Ascii.eqb c " " then
        match s' with
        | String d s'' =>
            if isLowerLetter d
            then String c (String (upperLetter d) (replaceInitials false s''))
            else String c (replaceInitials false s')
        | EmptyString => String c EmptyString
        end
      else if atStart && isLowerLetter c
      then String (upperLetter c) (replaceInitials false s')
      else String c (replaceInitials false s')
  end.

(** [firstUpperCase] *)
Definition firstUpperCase (text : string) : string :=
  replaceInitials true (Js.toLowerCase text).

(** The class of [cnRegex = /[^\\x00-\\xff]/g] in [truncate].  In the
    regular expression literal [\\] is a backslash, so the class names
    the characters [x], [f] and the range from [0] to the backslash, and
    the expression matches every character outside of them. *)
Definition cnRegex (c : ascii) : bool :=
  negb (Js.between 48 92 c || Ascii.eqb c "x" || Ascii.eqb c "f").

(** [s.replace(cnRegex, "**").length] *)
Fixpoint replacedLength (s : string) : Z :=
  match s with
  | EmptyString => 0
  | String c s' => (if cnRegex c then 2 else 1) + replacedLength s'
  end.

(** The [for] loop of [truncate]: [i] runs up to [text.length], here for
    the [count] values that are left. *)
Fixpoint truncate_loop (text : string) (length : Z) (count : nat) (i : Z)
  : option string :=
  match count with
  | O => None
  | S count' =>
      let _text := Js.substring text 0 i in
      if replacedLength _text >=? length then Some (_text +:+ "...")
      else truncate_loop text length count' (i + 1)
  end.

(** [truncate], for an integer [length]. *)
Definition truncate (text : string) (length : Z) : string :=
  if replacedLength text >? length then
    let m := length / 2 in
    match truncate_loop text length (Z.to_nat (Js.len text - m)) m with
    | Some cut => cut
    | None => text
    end
  else text.

Section Arrays.

(** The elements of an array, with the value [undefined] that a read
    outside of the array gives. *)
Variable A : Type.
Variable undefined : A.

(** [arr[i]], read. *)
Definition getIndex (arr : list A) (i : Z) : A :=
  if i <? 0 then undefined else nth (Z.to_nat i) arr undefined.

(** [arr[i] = v] for an integer [i]: inside the array the element is
    replaced, behind its end the array grows (the gap reads as
    [undefined]), and a negative [i] names a property that is not an
    element. *)
Definition setIndex (arr : list A) (i : Z) (v : A) : list A :=
  if i <? 0 then arr
  else if i <? Z.of_nat (length arr) then <[Z.to_nat i := v]> arr
  else (arr ++ replicate (Z.to_nat i - length arr) undefined ++ [v])%list.

(** [arr.splice(start, deleteCount, item)]: the removed elements and the
    array after the call. *)
Definition splice (arr : list A) (start deleteCount : Z) (item : A)
  : list A * list A :=
  let len := Z.of_nat (length arr) in
  let relativeStart :=
    if start <? 0 then Z.max (len + start) 0 else Z.min start len in
  let actualDeleteCount := Z.min (Z.max deleteCount 0) (len - relativeStart) in
  let from := Z.to_nat relativeStart in
  let count := Z.to_nat actualDeleteCount in
  (take count (drop from arr),
   (take from arr ++ item :: drop (from + count) arr)%list).

(** [swapArray]: [arr[index1] = arr.splice(index2, 1, arr[index1])[0]].
    The argument [arr[index1]] is read before [splice] runs, and the
    assignment is made to the array after it. *)
Definition swapArray (arr : list A) (index1 index2 : Z) : list A :=
  let item := getIndex arr index1 in
  let '(removed, arr') := splice arr index2 1 item in
  setIndex arr' index1 (nth 0 removed undefined).

(** [Object.assign(a1, found)] on the elements. *)
Variable assign : A -> A -> A.

(** [clone.findIndex(p)] *)
Fixpoint findIndex (p : A -> bool) (l : list A) : option nat :=
  match l with
  | [] => None
  | x :: l' => if p x then Some 0%nat else S <$> findIndex p l'
  end.

(** The [forEach] of [mergeArrays] over [arr1], with [clone] and [merged]
    as they stand. *)
Fixpoint mergeArrays_loop (callback : A -> A -> bool) (arr1 clone merged : list A)
  : list A :=
  match arr1 with
  | [] => merged
  | a1 :: arr1' =>
      match findIndex (callback a1) clone with
      | Some index =>
          let found := nth index clone undefined in
          mergeArrays_loop callback arr1' (delete index clone)
            (merged ++ [assign a1 found])%list
      | None => mergeArrays_loop callback arr1' clone merged
      end
  end.

(** [mergeArrays]: the array it returns.  The elements are taken to be
    distinct objects, so that the assignment to one of them is not seen
    through another. *)
Definition mergeArrays (arr1 arr2 : list A) (callback : A -> A -> bool)
  : list A :=
  mergeArrays_loop callback arr1 arr2 [].

End Arrays.

Arguments getIndex {A}.
Arguments setIndex {A}.
Arguments splice {A}.
Arguments swapArray {A}.
Arguments findIndex {A}.
Arguments mergeArrays_loop {A}.
Arguments mergeArrays {A}.

(** ** [SmbClient]: the path and the order of a listing *)

Module Smb.

(** [type SmbPath] *)
Record SmbPath : Type :=
  { share : string; dir : string; filename : string }.

(** [type SmbFile]; [type] is one of [SHARE], [DIR] and [FILE]. *)
Record SmbFile : Type :=
  { type : string; name : string; comment : option string;
    size : option Number; ctime : option string }.

Definition isSlash (c : ascii) : bool := Ascii.eqb c "/".

Fixpoint stripLeading (s : string) : string :=
  match s with
  | String c s' => if isSlash c then stripLeading s' else s
  | EmptyString => EmptyString
  end.

Fixpoint stripTrailing (s : string) : string :=
  match s with
  | String c s' =>
      match stripTrailing s' with
      | EmptyString => if isSlash c then EmptyString else String c EmptyString
      | rest => String c rest
      end
  | EmptyString => EmptyString
  end.

(** [path.replace(/^\/*|\/*$/g, "")]: the matches are the slashes at the
    start of the string and the slashes at its end. *)
Definition stripSlashes (path : string) : string :=
  stripTrailing (stripLeading path).

(** [s.split(/\/+/)]: the pieces between the runs of slashes; [inRun]
    tells whether the scan stands behind a slash of the run that ended
    the last piece. *)
Fixpoint split_slashes_from (inRun : bool) (cur s : string) : list string :=
  match s with
  | EmptyString => [cur]
  | String c s' =>
      if isSlash c then
        if inRun then split_slashes_from true cur s'
        else cur :: split_slashes_from true EmptyString s'
      else split_slashes_from false (Js.snoc cur c) s'
  end.

Definition split_slashes (s : string) : list string :=
  split_slashes_from false EmptyString s.

(** [parts.join("/")] *)
Fixpoint join (parts : list string) : string :=
  match parts with
  | [] => EmptyString
  | [p] => p
  | p :: rest => p +:+ "/" +:+ join rest
  end.

(** [parseSmbPath]: [shift() || ""] is the first piece, [pop() || ""] the
    last of the pieces that are left, or the empty string when none is. *)
Definition parseSmbPath (path : string) : SmbPath :=
  let parts := split_slashes (stripSlashes path) in
  let share := List.hd EmptyString parts in
  let parts := List.tl parts in
  let filename := List.last parts EmptyString in
  let parts := List.removelast parts in
  {| share := share; dir := join parts; filename := filename |}.

(** [a > b] on strings: the order of the code units. *)
Definition gt (a b : string) : bool :=
  match String.compare a b with Gt => true | _ => false end.

Section ListFiles.

Variable hostCompare : ascii -> ascii -> string -> Z.

(** The comparator given to [sort] in [listFiles]. *)
Definition compareFiles (a b : SmbFile) : Z :=
  if negb (String.eqb (type a) (type b)) then
    if gt (type a) (type b) then 1 else -1
  else Util.localeCompare hostCompare (name a) (name b).

End ListFiles.

End Smb.

(** ** Vocabulary of the further properties *)

(** The delimiter [parseMessageList] computes from the first line. *)
Definition delimiterOf (first : string) : string :=
  Js.substring first 0 (Js.indexOf ":" first + 1).

(** The lines of a response that the loop of [sendCommand] pushes: all but
    the version banners. *)
Definition dataLines (lines : list string) : list string :=
  List.filter (fun line => negb (Js.startsWith MpdSignal.VERSION line)) lines.

(** The last statement of [sendCommand]: the choice of the parser by the
    verb. *)
Definition parseReply (this : MpdClient) (command : string)
  (result : list string) : Result Reply :=
  if String.eqb command "playlistinfo" || String.eqb command "lsinfo"
  then match parseMessageList this result with
       | Ok l => Ok (ReplyList l)
       | Throw e => Throw e
       end
  else match parseMessageObject this result with
       | Ok m => Ok (ReplyObject m)
       | Throw e => Throw e
       end.

(** The events of a call up to its first read. *)
Definition callStart (this : MpdClient) (command : string)
  (argument : option Argument) : list IoEvent :=
  [EvConnect (hostname this) (port this);
   EvWrite (textEncoder_encode (commandLine command argument +:+ newline))].

(** The position of the first colon of a string, if it has one. *)
Fixpoint colonPos (s : string) : option nat :=
  match s with
  | EmptyString => None
  | String c s' =>
      if Ascii.eqb ":" c then Some 0%nat else S <$> colonPos s'
  end.

(** A state of the loop of [parseMessageList] seen from behind the records
    [front]: the records follow [front] and the reference moves with
    them. *)
Definition shiftState (front : list MpdMessage) (st : ListState) : ListState :=
  {| result := (front ++ result st)%list;
     message := (fun ref => (length front + ref)%nat) <$> message st |}.

(** The digits of a decimal numeral, most significant first. *)
Fixpoint uintDigits (d : Decimal.uint) : list Z :=
  match d with
  | Decimal.Nil => []
  | Decimal.D0 d' => 0 :: uintDigits d'
  | Decimal.D1 d' => 1 :: uintDigits d'
  | Decimal.D2 d' => 2 :: uintDigits d'
  | Decimal.D3 d' => 3 :: uintDigits d'
  | Decimal.D4 d' => 4 :: uintDigits d'
  | Decimal.D5 d' => 5 :: uintDigits d'
  | Decimal.D6 d' => 6 :: uintDigits d'
  | Decimal.D7 d' => 7 :: uintDigits d'
  | Decimal.D8 d' => 8 :: uintDigits d'
  | Decimal.D9 d' => 9 :: uintDigits d'
  end.

(** A component of a path: not empty and with no slash in it. *)
Definition isSegment (s : string) : bool :=
  negb (String.eqb s EmptyString)
  && forallb (fun c => negb (Smb.isSlash c)) (list_ascii_of_string s).

(** * Properties *)

(** ** Reading numbers *)

Example parseInt_42 : Num.parseInt (Some "42") = Int 42.
Proof. reflexivity. Qed.

Example parseInt_hex : Num.parseInt (Some " -0x1Fz") = Int (-31).
Proof. reflexivity. Qed.

Example parseInt_undefined : Num.parseInt None = NaN.
Proof. reflexivity. Qed.

Example parseFloat_10 : Num.parseFloat (Some "10") = Int 10.
Proof. reflexivity. Qed.

Example parseFloat_frac : Num.parseFloat (Some "12.50e1x") = Int 125.
Proof. reflexivity. Qed.

Example parseFloat_small : Num.parseFloat (Some "-.2500") = Dec (-25) 2.
Proof. reflexivity. Qed.

Example parseFloat_dot : Num.parseFloat (Some ".") = NaN.
Proof. reflexivity. Qed.

(** ** Strings *)

Lemma append_cons (a : ascii) (s t : string) :
  String a s +:+ t = String a (s +:+ t).
Proof. reflexivity. Qed.

Lemma append_empty_r (s : string) : s +:+ EmptyString = s.
Proof.
  induction s as [| a s IH]; [reflexivity |].
  now rewrite append_cons, IH.
Qed.

Lemma append_snoc (cur : string) (c : ascii) (s : string) :
  Js.snoc cur c +:+ s = cur +:+ String c s.
Proof.
  unfold Js.snoc. induction cur as [| a cur IH]; [reflexivity |].
  now rewrite !append_cons, IH.
Qed.

Lemma split_colon_space_from_whole (s cur : string) :
  hasSeparator s = false ->
  Js.split_colon_space_from cur s = [cur +:+ s].
Proof.
  revert cur. induction s as [| c s IH]; intros cur Hs.
  - simpl. now rewrite append_empty_r.
  - destruct s as [| d s'].
    + reflexivity.
    + change (hasSeparator (String c (String d s')))
        with ((Ascii.eqb c ":" && Js.isWhiteSpace d)
              || hasSeparator (String d s')) in Hs.
      apply orb_false_elim in Hs as [Hc Hrest].
      change (Js.split_colon_space_from cur (String c (String d s')))
        with (if Ascii.eqb c ":" && Js.isWhiteSpace d
              then cur :: Js.split_colon_space_from EmptyString s'
              else Js.split_colon_space_from (Js.snoc cur c) (String d s')).
      rewrite Hc, (IH _ Hrest), append_snoc. reflexivity.
Qed.

(** A line in which [/:\s/] has no match is one piece: the whole line is
    the key and the value is [undefined]. *)
Lemma keyValue_no_separator (line : string) :
  hasSeparator line = false -> keyValue line = (line, None).
Proof.
  intros H. unfold keyValue, Js.split_colon_space.
  now rewrite (split_colon_space_from_whole _ _ H).
Qed.

(** The key is the text in front of the first match of [/:\s/]; the value
    is the first piece of what follows it, which is all of it only when
    no further match occurs. *)
Lemma split_colon_space_from_first (key : string) (w : ascii)
  (rest cur : string) :
  hasSeparator key = false ->
  Js.isWhiteSpace w = true ->
  Js.split_colon_space_from cur (key +:+ String ":" (String w rest)) =
  (cur +:+ key) :: Js.split_colon_space rest.
Proof.
  intros Hkey Hw. revert cur.
  induction key as [| c key IH]; intros cur.
  - change (EmptyString +:+ String ":" (String w rest))
      with (String ":" (String w rest)).
    simpl. rewrite Hw, append_empty_r. reflexivity.
  - assert (Hnext : exists d tail,
               key +:+ String ":" (String w rest) = String d tail /\
               Ascii.eqb c ":" && Js.isWhiteSpace d = false /\
               hasSeparator key = false).
    { destruct key as [| d key'].
      - exists ":"%char, (String w rest). repeat split.
        now rewrite andb_false_r.
      - exists d, (key' +:+ String ":" (String w rest)).
        change (hasSeparator (String c (String d key')))
          with ((Ascii.eqb c ":" && Js.isWhiteSpace d)
                || hasSeparator (String d key')) in Hkey.
        apply orb_false_elim in Hkey as [Hc Hk]. now repeat split. }
    destruct Hnext as (d & tail & Heq & Hc & Hk).
    rewrite append_cons, Heq.
    change (Js.split_colon_space_from cur (String c (String d tail)))
      with (if Ascii.eqb c ":" && Js.isWhiteSpace d
            then cur :: Js.split_colon_space_from EmptyString tail
            else Js.split_colon_space_from (Js.snoc cur c) (String d tail)).
    rewrite Hc, <- Heq, (IH Hk), append_snoc. reflexivity.
Qed.

Lemma keyValue_first_separator (key : string) (w : ascii) (rest : string) :
  hasSeparator key = false ->
  Js.isWhiteSpace w = true ->
  keyValue (key +:+ String ":" (String w rest)) =
  (key, head (Js.split_colon_space rest)).
Proof.
  intros Hkey Hw. unfold keyValue, Js.split_colon_space at 1.
  rewrite (split_colon_space_from_first _ _ _ _ Hkey Hw).
  change (EmptyString +:+ key) with key.
  destruct (Js.split_colon_space rest); reflexivity.
Qed.

(** ** The field coercer *)

Lemma oneOf_tableKeys (key : string) :
  oneOf key tableKeys = false ->
  oneOf key integerKeys = false /\
  Forall (fun k => String.eqb key k = false)
    ["directory"; "Last-Modified"; "Time"; "song"; "songid"; "time";
     "elapsed"; "bitrate"; "audio"].
Proof.
  unfold oneOf, tableKeys. rewrite existsb_app.
  intros H. apply orb_false_elim in H as [H1 H2]. split; [exact H1 |].
  simpl in H2.
  repeat (apply orb_false_elim in H2 as [? H2]).
  repeat constructor; assumption.
Qed.

Lemma setProp_fresh (k : string) (v : Value) :
  k <> "__proto__" -> setProp k v ∅ = {[ k := v ]}.
Proof.
  intros Hk. unfold setProp.
  destruct (String.eqb_spec k "__proto__") as [-> | _]; [contradiction |].
  apply insert_empty.
Qed.

(** A key outside the coercion table goes through the last arm of the
    [switch]. *)
Lemma parseMessageLine_default (this : MpdClient) (line key : string)
  (value : option string) :
  keyValue line = (key, value) ->
  oneOf key tableKeys = false ->
  parseMessageLine this line =
  Ok (setProp (Js.toLowerCase key) (ofOption value) ∅).
Proof.
  intros Hkv Htab. apply oneOf_tableKeys in Htab as [Hint Hrest].
  unfold parseMessageLine. rewrite Hkv, Hint.
  repeat match goal with
         | H : Forall _ (_ :: _) |- _ =>
             apply Forall_cons_iff in H as [-> H]
         end.
  reflexivity.
Qed.

(** C3 (what the code does): the line is split at every colon followed by
    white space and only the first two pieces are kept, so a value that
    itself holds a colon and a space is cut there.  The line
    [Title: Foo: Bar] yields the field [title] with the value [Foo], not
    [Foo: Bar]. *)
Theorem parseMessageLine_cuts_value_at_second_separator (this : MpdClient) :
  keyValue "Title: Foo: Bar" = ("Title", Some "Foo") /\
  parseMessageLine this "Title: Foo: Bar" = Ok {[ "title" := VString "Foo" ]}.
Proof. split; reflexivity. Qed.

(** C4 (counterexample): the line [foo] has no separator, yet parsing it
    yields a field, and the line [time] makes the whole call fail. *)
Lemma unseparated_line_not_skipped :
  parseMessageLine aClient "foo" = Ok {[ "foo" := VUndefined ]} /\
  parseMessageLine aClient "foo" <> Ok ∅ /\
  parseMessageObject aClient ["volume: 3"; "foo"] =
    Ok {[ "volume" := VNumber (Int 3); "foo" := VUndefined ]} /\
  parseMessageObject aClient ["volume: 3"; "time"] = Throw (TypeError "split").
Proof.
  repeat split; try (vm_compute; reflexivity).
  intros H.
  apply (f_equal (fun r : Result MpdMessage =>
                    match r with Ok m => m !! "foo" | Throw _ => None end))
    in H.
  vm_compute in H. discriminate H.
Qed.

(** C4 (amended): a non-empty line with no colon-and-white-space separator
    is not skipped.  When the line is not a key of the coercion table (and
    its lower-cased text is not [__proto__]) it parses without failing to
    exactly one field, the lower-cased line mapped to [undefined], and the
    assembler writes that field into the record. *)
Theorem unseparated_line_is_key_of_undefined (this : MpdClient)
  (line : string) (record : MpdMessage) (rest : list string) :
  hasSeparator line = false ->
  line <> EmptyString ->
  oneOf line tableKeys = false ->
  Js.toLowerCase line <> "__proto__" ->
  parseMessageLine this line = Ok {[ Js.toLowerCase line := VUndefined ]} /\
  parseMessageObject_loop this record (line :: rest) =
  parseMessageObject_loop this (<[ Js.toLowerCase line := VUndefined ]> record)
    rest.
Proof.
  intros Hsep _ Htab Hproto.
  assert (Hline : parseMessageLine this line
                  = Ok {[ Js.toLowerCase line := VUndefined ]}).
  { rewrite (parseMessageLine_default this line line None
               (keyValue_no_separator _ Hsep) Htab).
    simpl. now rewrite setProp_fresh. }
  split; [exact Hline |].
  simpl. rewrite Hline. simpl. unfold objectAssign.
  now rewrite insert_union_singleton_l.
Qed.

Lemma unseparated_line_is_key_of_undefined_witness :
  parseMessageLine aClient "foo" = Ok {[ "foo" := VUndefined ]} /\
  parseMessageObject_loop aClient ∅ ["foo"; "volume: 3"] =
  parseMessageObject_loop aClient (<[ "foo" := VUndefined ]> ∅) ["volume: 3"].
Proof.
  apply (unseparated_line_is_key_of_undefined aClient "foo" ∅ ["volume: 3"]).
  - reflexivity.
  - discriminate.
  - reflexivity.
  - discriminate.
Defined.

(** ** The message assembler *)

(** C1 (what the code does): with zero data lines the object parser
    returns the empty record, but the list parser reads [substring] from
    the missing first line and throws; through [sendCommand] a response
    that is only the success marker therefore fails for [playlistinfo]
    and for [lsinfo]. *)
Theorem empty_response_object_ok_list_throws (this : MpdClient) :
  parseMessageObject this [] = Ok ∅ /\
  parseMessageList this [] = Throw (TypeError "substring") /\
  fst (run (sendCommand this (Accepted ["OK"]) "status" None))
    = Ok (ReplyObject ∅) /\
  fst (run (sendCommand this (Accepted ["OK"]) "playlistinfo" None))
    = Throw (TypeError "substring") /\
  (forall path,
     fst (run (sendCommand this (Accepted ["OK"]) "lsinfo"
                 (Some (ArgString path))))
     = Throw (TypeError "substring")).
Proof.
  split; [reflexivity |]. split; [reflexivity |]. split; [reflexivity |].
  split; [reflexivity |]. intros path. reflexivity.
Qed.

(** C7: in list mode the four lines [file: a.mp3], [Time: 10],
    [file: b.mp3], [Time: 20] have the delimiter made of the raw key
    [file] of the first line (kept with its colon), the lines that start
    a record are exactly those whose raw key is [file], and the result is
    the two records [{file: a.mp3, duration: 10}] and
    [{file: b.mp3, duration: 20}]. *)
Theorem list_mode_two_songs (this : MpdClient) :
  let lines := ["file: a.mp3"; "Time: 10"; "file: b.mp3"; "Time: 20"] in
  fst (keyValue "file: a.mp3") = "file" /\
  Js.substring "file: a.mp3" 0 (Js.indexOf ":" "file: a.mp3" + 1)
    = "file" +:+ ":" /\
  Forall (fun line =>
            Js.startsWith ("file" +:+ ":") line
            = String.eqb (fst (keyValue line)) "file") lines /\
  parseMessageList this lines =
  Ok [ {[ "file" := VString "a.mp3"; "duration" := VNumber (Int 10) ]};
       {[ "file" := VString "b.mp3"; "duration" := VNumber (Int 20) ]} ].
Proof.
  cbv zeta. split; [reflexivity |]. split; [reflexivity |]. split.
  - repeat constructor.
  - vm_compute. reflexivity.
Qed.

Example object_mode_volume_repeat (this : MpdClient) :
  parseMessageObject this ["volume: 42"; "repeat: 1"] =
  Ok {[ "volume" := VNumber (Int 42); "repeat" := VNumber (Int 1) ]}.
Proof. vm_compute. reflexivity. Qed.

(** ** The response loop *)

Lemma readLines_cons (line : string) (rest result : list string)
  (tr : list IoEvent) :
  readLines (line :: rest) result tr =
  let tr' := (tr ++ [EvRead line])%list in
  if String.eqb line MpdSignal.END then (Ok result, tr')
  else if Js.startsWith MpdSignal.VERSION line then readLines rest result tr'
  else if Js.startsWith MpdSignal.ERROR line then
    (Throw (Error (Js.substring_from line 4)), tr')
  else readLines rest (result ++ [line])%list tr'.
Proof.
  cbn [readLines]. unfold bindIo, emit.
  destruct (String.eqb line MpdSignal.END); [reflexivity |].
  destruct (Js.startsWith MpdSignal.VERSION line); [reflexivity |].
  destruct (Js.startsWith MpdSignal.ERROR line); reflexivity.
Qed.

Lemma writes_app (tr1 tr2 : list IoEvent) :
  writes (tr1 ++ tr2) = (writes tr1 ++ writes tr2)%list.
Proof.
  induction tr1 as [| ev tr1 IH]; [reflexivity |].
  destruct ev; simpl; now rewrite IH.
Qed.

(** The loop only reads: it adds no write to the trace. *)
Lemma readLines_writes (lines result : list string) (tr : list IoEvent) :
  writes (snd (readLines lines result tr)) = writes tr.
Proof.
  revert result tr. induction lines as [| line rest IH]; intros result tr.
  - reflexivity.
  - rewrite readLines_cons. cbv zeta.
    assert (Hw : writes (tr ++ [EvRead line]) = writes tr).
    { rewrite writes_app. simpl. apply app_nil_r. }
    destruct (String.eqb line MpdSignal.END); [exact Hw |].
    destruct (Js.startsWith MpdSignal.VERSION line); [now rewrite IH |].
    destruct (Js.startsWith MpdSignal.ERROR line); [exact Hw |].
    now rewrite IH.
Qed.

(** A line that starts with the error marker is neither the success
    marker nor a version banner. *)
Lemma error_line_tests (line : string) :
  Js.startsWith MpdSignal.ERROR line = true ->
  String.eqb line MpdSignal.END = false /\
  Js.startsWith MpdSignal.VERSION line = false.
Proof.
  destruct line as [| c line]; [discriminate |].
  unfold MpdSignal.ERROR. cbn [Js.startsWith].
  intros H. apply andb_prop in H as [Hc _].
  apply Ascii.eqb_eq in Hc as <-. split; reflexivity.
Qed.

Lemma readLines_error (pre : list string) (ackLine : string)
  (post result : list string) (tr : list IoEvent) :
  Forall continues pre ->
  Js.startsWith MpdSignal.ERROR ackLine = true ->
  readLines (pre ++ ackLine :: post) result tr =
  (Throw (Error (Js.substring_from ackLine 4)),
   (tr ++ map EvRead pre ++ [EvRead ackLine])%list).
Proof.
  intros Hpre Hack. revert result tr.
  induction Hpre as [| line pre [Hend Herr] _ IH]; intros result tr.
  - cbn [app map]. rewrite readLines_cons. cbv zeta.
    destruct (error_line_tests _ Hack) as [-> ->]. now rewrite Hack.
  - cbn [app map]. rewrite readLines_cons. cbv zeta.
    destruct (String.eqb_spec line MpdSignal.END) as [E | _];
      [contradiction |].
    rewrite Herr.
    destruct (Js.startsWith MpdSignal.VERSION line);
      rewrite IH, <- app_assoc; reflexivity.
Qed.

Lemma substring_whole (s : string) :
  String.substring 0 (String.length s) s = s.
Proof.
  induction s as [| c s IH]; [reflexivity |].
  simpl. now rewrite IH.
Qed.

(** The message of the error is what follows the marker and one
    separating character. *)
Lemma error_message (sep : ascii) (message : string) :
  Js.substring_from (MpdSignal.ERROR +:+ String sep message) 4 = message.
Proof.
  change (MpdSignal.ERROR +:+ String sep message)
    with (String "A" (String "C" (String "K" (String sep message)))).
  unfold Js.substring_from, Js.substring, Js.clamp, Js.len.
  cbn [String.length]. set (n := String.length message).
  replace (Z.min (Z.max 4 0) (Z.of_nat (S (S (S (S n)))))) with 4 by lia.
  replace (Z.min (Z.max (Z.of_nat (S (S (S (S n))))) 0)
             (Z.of_nat (S (S (S (S n))))))
    with (Z.of_nat (S (S (S (S n))))) by lia.
  replace (Z.min 4 (Z.of_nat (S (S (S (S n)))))) with 4 by lia.
  replace (Z.max 4 (Z.of_nat (S (S (S (S n))))))
    with (Z.of_nat (S (S (S (S n))))) by lia.
  replace (Z.to_nat (Z.of_nat (S (S (S (S n)))) - 4)) with n by lia.
  change (Z.to_nat 4) with 4%nat. cbn [String.substring].
  apply substring_whole.
Qed.

(** ** The command dispatcher *)

(** On an accepted connection the trace of [sendCommand] is the connect,
    the one write of the encoded command line, and the reads of the
    loop. *)
Lemma sendCommand_accepted (this : MpdClient) (lines : list string)
  (command : string) (argument : option Argument) :
  let start :=
    [EvConnect (hostname this) (port this);
     EvWrite (textEncoder_encode (commandLine command argument +:+ newline))]
  in
  run (sendCommand this (Accepted lines) command argument) =
  match readLines lines [] start with
  | (Ok result, tr) =>
      if String.eqb command "playlistinfo" || String.eqb command "lsinfo"
      then (match parseMessageList this result with
            | Ok l => Ok (ReplyList l)
            | Throw e => Throw e
            end, tr)
      else (match parseMessageObject this result with
            | Ok m => Ok (ReplyObject m)
            | Throw e => Throw e
            end, tr)
  | (Throw e, tr) => (Throw e, tr)
  end.
Proof.
  cbv zeta. unfold run, sendCommand, getConnection, bindIo, emit, ret, lift.
  cbn [app].
  destruct (readLines lines [] _) as [[result | e] tr]; [| reflexivity].
  destruct (String.eqb command "playlistinfo" || String.eqb command "lsinfo").
  - destruct (parseMessageList this result); reflexivity.
  - destruct (parseMessageObject this result); reflexivity.
Qed.

(** The command line is written in one operation: the trace of a call
    holds exactly one write, of the whole encoded line. *)
Lemma sendCommand_writes (this : MpdClient) (lines : list string)
  (command : string) (argument : option Argument) :
  writes (snd (run (sendCommand this (Accepted lines) command argument))) =
  [textEncoder_encode (commandLine command argument +:+ newline)].
Proof.
  rewrite sendCommand_accepted. cbv zeta.
  match goal with
  | |- context [readLines lines [] ?start] =>
      pose proof (readLines_writes lines [] start) as Hw;
      destruct (readLines lines [] start) as [[result | e] tr]
  end; cbn [snd] in Hw.
  - destruct (String.eqb command "playlistinfo"
              || String.eqb command "lsinfo"); exact Hw.
  - exact Hw.
Qed.

(** The two parts of C5 that hold: a call with no argument writes the verb
    and a newline, a call with a truthy argument writes the verb, a space
    and the argument between double quotes. *)
Lemma sendCommand_no_argument (this : MpdClient) (lines : list string)
  (command : string) :
  writes (snd (run (sendCommand this (Accepted lines) command None))) =
  [textEncoder_encode (command +:+ newline)].
Proof. apply sendCommand_writes. Qed.

Lemma sendCommand_truthy_argument (this : MpdClient) (lines : list string)
  (command : string) (a : Argument) :
  argumentTruthy (Some a) = true ->
  writes (snd (run (sendCommand this (Accepted lines) command (Some a)))) =
  [textEncoder_encode
     ((command +:+ " " +:+ Js.dquote +:+ argumentText a +:+ Js.dquote)
      +:+ newline)].
Proof.
  intros Ha. rewrite sendCommand_writes. unfold commandLine. now rewrite Ha.
Qed.

(** C5 (what the code does): [setRepeat(0)] supplies the argument [0], and
    the line written is the bare verb [repeat] with its newline, not
    [repeat "0"] with its newline. *)
Theorem setRepeat_zero_writes_bare_verb :
  commandLine "repeat" (Some (ArgNumber 0)) = "repeat" /\
  run (setRepeat aClient (Accepted ["OK"]) 0) =
    (Ok tt,
     [EvConnect "10.0.0.2" 6600;
      EvWrite (textEncoder_encode ("repeat" +:+ newline));
      EvRead "OK"]) /\
  textEncoder_encode ("repeat" +:+ newline) <>
  textEncoder_encode
    ("repeat" +:+ " " +:+ Js.dquote +:+ "0" +:+ Js.dquote +:+ newline).
Proof.
  split; [reflexivity |]. split; [reflexivity |].
  vm_compute. discriminate.
Qed.

(** The falsy arguments are the number [0] and the empty string. *)
Lemma argument_falsy_cases (a : Argument) :
  argumentTruthy (Some a) = false <->
  a = ArgNumber 0 \/ a = ArgString EmptyString.
Proof.
  split.
  - destruct a as [s | n]; cbn [argumentTruthy].
    + destruct s; [now right | discriminate].
    + intros H. apply negb_false_iff, Z.eqb_eq in H. left. now subst.
  - intros [-> | ->]; reflexivity.
Qed.

(** C10: an argument that is falsy, the number [0] or the empty string, is
    dropped.  The call is the call with no argument, and on an accepted
    connection its one write is the bare verb and a newline; so
    [setRepeat(0)] writes [repeat] and a newline. *)
Theorem falsy_argument_sends_bare_verb (this : MpdClient) (net : Network)
  (lines : list string) (command : string) :
  commandLine command (Some (ArgNumber 0)) = command /\
  commandLine command (Some (ArgString EmptyString)) = command /\
  run (sendCommand this net command (Some (ArgNumber 0)))
    = run (sendCommand this net command None) /\
  run (sendCommand this net command (Some (ArgString EmptyString)))
    = run (sendCommand this net command None) /\
  writes (snd (run (sendCommand this (Accepted lines) command
                      (Some (ArgNumber 0)))))
    = [textEncoder_encode (command +:+ newline)] /\
  writes (snd (run (sendCommand this (Accepted lines) command
                      (Some (ArgString EmptyString)))))
    = [textEncoder_encode (command +:+ newline)] /\
  writes (snd (run (setRepeat this (Accepted lines) 0)))
    = [textEncoder_encode ("repeat" +:+ newline)].
Proof.
  split; [reflexivity |]. split; [reflexivity |].
  split; [reflexivity |]. split; [reflexivity |].
  split; [apply sendCommand_writes |]. split; [apply sendCommand_writes |].
  pose proof (sendCommand_writes this lines "repeat" (Some (ArgNumber 0)))
    as Hw.
  unfold setRepeat, command_, run, bindIo in *.
  destruct (sendCommand this (Accepted lines) "repeat" (Some (ArgNumber 0)) [])
    as [[reply | e] tr]; exact Hw.
Qed.

(** C6: when the first line of the response that stops the loop begins
    with the error marker [ACK], the call throws an error whose message is
    that line from its fifth character on, which for a line made of the
    marker, one separating character and a text is that text; the trace
    holds the reads of the lines up to the error line and of no line after
    it, and the call returns no record, whatever data lines came first. *)
Theorem error_line_fails_call (this : MpdClient) (pre : list string)
  (ackLine : string) (post : list string) (command : string)
  (argument : option Argument) :
  Forall continues pre ->
  Js.startsWith MpdSignal.ERROR ackLine = true ->
  run (sendCommand this (Accepted (pre ++ ackLine :: post)) command argument) =
    (Throw (Error (Js.substring_from ackLine 4)),
     ([EvConnect (hostname this) (port this);
       EvWrite (textEncoder_encode
                  (commandLine command argument +:+ newline))]
      ++ map EvRead pre ++ [EvRead ackLine])%list) /\
  (forall sep message,
     ackLine = MpdSignal.ERROR +:+ String sep message ->
     Js.substring_from ackLine 4 = message).
Proof.
  intros Hpre Hack. split.
  - rewrite sendCommand_accepted. cbv zeta.
    now rewrite (readLines_error pre ackLine post [] _ Hpre Hack).
  - intros sep message ->. apply error_message.
Qed.

Lemma error_line_fails_call_witness :
  run (sendCommand aClient
         (Accepted (["OK MPD 0.23.5"; "volume: 42"]
                    ++ "ACK some error" :: ["repeat: 1"; "OK"]))
         "status" None) =
  (Throw (Error "some error"),
   [EvConnect "10.0.0.2" 6600;
    EvWrite (textEncoder_encode ("status" +:+ newline));
    EvRead "OK MPD 0.23.5"; EvRead "volume: 42"; EvRead "ACK some error"]).
Proof.
  refine (proj1 (error_line_fails_call aClient
                   ["OK MPD 0.23.5"; "volume: 42"] "ACK some error"
                   ["repeat: 1"; "OK"] "status" None _ _)).
  - repeat (constructor; try discriminate).
  - reflexivity.
Defined.

Example error_on_first_line (this : MpdClient) :
  fst (run (sendCommand this (Accepted ["ACK some error"]) "play" None)) =
  Throw (Error "some error").
Proof. reflexivity. Qed.

(** ** Validation *)

Lemma indexOf_from_found (c : ascii) (s : string) (i : Z) :
  In c (list_ascii_of_string s) ->
  0 <= i ->
  0 <= Js.indexOf_from (String c EmptyString) s i.
Proof.
  revert i. induction s as [| a s IH]; intros i Hin Hi.
  - destruct Hin.
  - cbn [Js.indexOf_from Js.startsWith].
    destruct (Ascii.eqb_spec c a) as [-> | Hne]; cbn [andb].
    + exact Hi.
    + destruct Hin as [-> | Hin]; [contradiction |].
      apply IH; [exact Hin | lia].
Qed.

(** C8: for every path that contains the character [+], [addSong] throws
    its validation error on an empty trace: no connection was opened,
    nothing was written and nothing was read. *)
Theorem addSong_plus_rejected (this : MpdClient) (net : Network)
  (path : string) :
  In "+"%char (list_ascii_of_string path) ->
  run (addSong this net path) =
  (Throw (Error ("The path cannot contain a " +:+ Js.dquote +:+ "+"
                 +:+ Js.dquote +:+ " sign")),
   []).
Proof.
  intros Hin. unfold addSong, Js.indexOf.
  pose proof (indexOf_from_found "+" path 0 Hin (Z.le_refl 0)) as Hidx.
  apply Z.geb_le in Hidx. rewrite Hidx. reflexivity.
Qed.

Lemma addSong_plus_rejected_witness :
  In "+"%char (list_ascii_of_string "rock+roll.mp3") /\
  run (addSong aClient (Accepted ["OK"]) "rock+roll.mp3") =
  (Throw (Error ("The path cannot contain a " +:+ Js.dquote +:+ "+"
                 +:+ Js.dquote +:+ " sign")),
   []).
Proof.
  assert (Hin : In "+"%char (list_ascii_of_string "rock+roll.mp3")).
  { simpl. tauto. }
  split; [exact Hin |].
  exact (addSong_plus_rejected aClient (Accepted ["OK"]) "rock+roll.mp3" Hin).
Defined.

Example addSong_without_plus :
  run (addSong aClient (Accepted ["OK"]) "a.mp3") =
  (Ok tt,
   [EvConnect "10.0.0.2" 6600;
    EvWrite (textEncoder_encode
               ("add " +:+ Js.dquote +:+ "a.mp3" +:+ Js.dquote +:+ newline));
    EvRead "OK"]).
Proof. vm_compute. reflexivity. Qed.

(** ** The order of a directory listing *)

(** The comparator answers [-1] for the file [a] against the directory
    [b], as it does for the directory against the file: the test on
    [isDir] has no counterpart for a file compared with a directory. *)
Lemma libraryCompare_file_against_directory
  (hostCompare : ascii -> ascii -> string -> Z) :
  libraryCompare hostCompare fileA dirB = Ok (-1) /\
  libraryCompare hostCompare dirB fileA = Ok (-1).
Proof. split; reflexivity. Qed.

Lemma Host_sort_pairs : pivot_first_on_pairs Host.sort.
Proof.
  intros comparefn x y. unfold Host.sort. cbn.
  destruct (comparefn y x) as [order | e]; cbn; [| reflexivity].
  destruct (order <? 0); reflexivity.
Qed.

(** C2 (what the code does): for a response that lists the directory [b]
    and then the file [a], a host that sorts a pair as V8 does returns the
    file first: the record with [isDir] comes after the record
    without. *)
Theorem getLibrary_file_before_directory
  (hostCompare : ascii -> ascii -> string -> Z)
  (sort : (MpdMessage -> MpdMessage -> Result Z) ->
          list MpdMessage -> Result (list MpdMessage))
  (this : MpdClient) :
  pivot_first_on_pairs sort ->
  fst (run (sendCommand this
              (Accepted ["file: x"; "directory: b"; "file: a"; "OK"])
              "lsinfo" (Some (ArgString "music"))))
    = Ok (ReplyList [dirB; fileA]) /\
  fst (run (getLibrary hostCompare sort this
              (Accepted ["file: x"; "directory: b"; "file: a"; "OK"])
              "music"))
    = Ok [fileA; dirB] /\
  truthy (dirB !! "isDir") = true /\
  truthy (fileA !! "isDir") = false.
Proof.
  intros Hsort.
  assert (Hreply :
            fst (run (sendCommand this
                        (Accepted ["file: x"; "directory: b"; "file: a"; "OK"])
                        "lsinfo" (Some (ArgString "music"))))
            = Ok (ReplyList [dirB; fileA])).
  { vm_compute. reflexivity. }
  split; [exact Hreply |]. split; [| split; reflexivity].
  unfold getLibrary, run, bindIo in *.
  destruct (sendCommand this _ "lsinfo" _ []) as [reply tr].
  cbn [fst] in Hreply. subst reply. unfold lift. cbn [fst].
  rewrite Hsort.
  destruct (libraryCompare_file_against_directory hostCompare) as [-> _].
  reflexivity.
Qed.

Lemma getLibrary_file_before_directory_witness :
  fst (run (getLibrary Host.compareByCode Host.sort aClient
              (Accepted ["file: x"; "directory: b"; "file: a"; "OK"])
              "music"))
  = Ok [fileA; dirB].
Proof.
  exact (proj1 (proj2 (getLibrary_file_before_directory
                         Host.compareByCode Host.sort aClient
                         Host_sort_pairs))).
Defined.

(** A host of the other convention keeps the file in front when the
    response lists the file first: whichever way a pair is settled, one
    of the two listings comes out with the file before the directory. *)
Lemma getLibrary_file_stays_before_directory
  (hostCompare : ascii -> ascii -> string -> Z)
  (sort : (MpdMessage -> MpdMessage -> Result Z) ->
          list MpdMessage -> Result (list MpdMessage))
  (this : MpdClient) :
  first_kept_on_pairs sort ->
  fst (run (getLibrary hostCompare sort this
              (Accepted ["file: a"; "file: x"; "directory: b"; "OK"])
              "music"))
    = Ok [fileA; dirB].
Proof.
  intros Hsort.
  assert (Hreply :
            fst (run (sendCommand this
                        (Accepted ["file: a"; "file: x"; "directory: b"; "OK"])
                        "lsinfo" (Some (ArgString "music"))))
            = Ok (ReplyList [fileA; dirB])).
  { vm_compute. reflexivity. }
  unfold getLibrary, run, bindIo in *.
  destruct (sendCommand this _ "lsinfo" _ []) as [reply tr].
  cbn [fst] in Hreply. subst reply. unfold lift. cbn [fst].
  rewrite Hsort.
  destruct (libraryCompare_file_against_directory hostCompare) as [-> _].
  reflexivity.
Qed.

(** The parts of the order that the comparator does settle: a directory
    against a file answers [-1], and two records of the same type are
    compared by [localeCompare] on their [file] fields. *)
Lemma libraryCompare_directory_against_file
  (hostCompare : ascii -> ascii -> string -> Z) (a b : MpdMessage) :
  truthy (a !! "isDir") = true ->
  truthy (b !! "isDir") = false ->
  libraryCompare hostCompare a b = Ok (-1).
Proof. intros Ha Hb. unfold libraryCompare. now rewrite Ha, Hb. Qed.

Lemma libraryCompare_same_type
  (hostCompare : ascii -> ascii -> string -> Z) (a b : MpdMessage)
  (aStr bStr : string) :
  truthy (a !! "isDir") = truthy (b !! "isDir") ->
  a !! "file" = Some (VString aStr) ->
  b !! "file" = Some (VString bStr) ->
  libraryCompare hostCompare a b =
  Ok (Util.localeCompare hostCompare aStr bStr).
Proof.
  intros Hty Ha Hb. unfold libraryCompare, fileOf. rewrite Hty, Ha, Hb.
  destruct (truthy (b !! "isDir")); reflexivity.
Qed.

(** Two letters that differ only in case are each placed after the
    other. *)
Example localeCompare_case
  (hostCompare : ascii -> ascii -> string -> Z) :
  Util.localeCompare hostCompare "a" "A" = 1 /\
  Util.localeCompare hostCompare "A" "a" = 1.
Proof. split; reflexivity. Qed.

Example localeCompare_tiers
  (hostCompare : ascii -> ascii -> string -> Z) :
  Util.localeCompare hostCompare "-x" "1x" = -1 /\
  Util.localeCompare hostCompare "a9" "a10" = 8 /\
  Util.localeCompare hostCompare "ab" "abc" = -1.
Proof. repeat split. Qed.

(** ** The parsers on the store: no state between two parses *)

Lemma alter_fresh {A : Type} (f : A -> A) (h : list A) (o : A) :
  alter f (length h) (h ++ [o])%list = (h ++ [f o])%list.
Proof.
  rewrite <- (Nat.add_0_r (length h)) at 1. now rewrite alter_app_r.
Qed.

Lemma alter_middle {A : Type} (f : A -> A) (h : list A) (o : A)
  (tail : list A) :
  alter f (length h) (h ++ o :: tail)%list = (h ++ f o :: tail)%list.
Proof.
  rewrite <- (Nat.add_0_r (length h)) at 1. now rewrite alter_app_r.
Qed.

(** On the store [parseMessageLine] allocates one object, behind the
    objects that exist, and leaves in it the record of the functional
    parser; when it throws the object is still empty. *)
Lemma heap_parseMessageLine (c : MpdClient) (this : Heap.loc)
  (line : string) (h : Heap.Store) :
  Heap.parseMessageLine this line h =
  match parseMessageLine c line with
  | Ok m => (Ok (length h), (h ++ [Heap.ORecord m])%list)
  | Throw e => (Throw e, (h ++ [Heap.ORecord ∅])%list)
  end.
Proof.
  unfold Heap.parseMessageLine, parseMessageLine, Heap.bindSt, Heap.new.
  destruct (keyValue line) as [key value].
  repeat match goal with
         | |- context [if ?b then _ else _] => destruct b
         end;
    try destruct value;
    unfold Heap.setField, Heap.ret, Heap.throw;
    rewrite ?alter_fresh; reflexivity.
Qed.

Lemma heap_parseMessageObject_loop (c : MpdClient) (this : Heap.loc)
  (lines : list string) :
  forall (h : Heap.Store) (acc : MpdMessage) (tail : Heap.Store),
  exists acc' tail',
    Heap.parseMessageObject_loop this (length h) lines
      (h ++ Heap.ORecord acc :: tail)%list =
    (match parseMessageObject_loop c acc lines with
     | Ok _ => Ok tt
     | Throw e => Throw e
     end, (h ++ Heap.ORecord acc' :: tail')%list) /\
    forall m, parseMessageObject_loop c acc lines = Ok m -> acc' = m.
Proof.
  induction lines as [| line rest IH]; intros h acc tail.
  - exists acc, tail. split; [reflexivity |]. now intros m [= <-].
  - cbn [Heap.parseMessageObject_loop parseMessageObject_loop].
    unfold Heap.bindSt at 1. rewrite (heap_parseMessageLine c).
    destruct (parseMessageLine c line) as [message | e]; cbn [bind].
    + unfold Heap.bindSt at 1. unfold Heap.assign.
      rewrite list_lookup_middle by reflexivity.
      rewrite <- app_assoc. cbn [app]. rewrite alter_middle.
      cbn [Heap.onRecord].
      apply (IH h (objectAssign acc message)).
    + exists acc, (tail ++ [Heap.ORecord ∅])%list.
      rewrite <- app_assoc. split; [reflexivity | discriminate].
Qed.

(** [parseMessageObject] on the store: the reference it returns is the
    first free position, the objects that existed are as they were, and
    the reference stands for the record of the functional parser. *)
Lemma heap_parseMessageObject (c : MpdClient) (this : Heap.loc)
  (lines : list string) (h : Heap.Store) :
  exists s,
    Heap.parseMessageObject this lines h =
    (match parseMessageObject c lines with
     | Ok _ => Ok (length h)
     | Throw e => Throw e
     end, s) /\
    take (length h) s = h /\
    forall m, parseMessageObject c lines = Ok m ->
              Heap.record s (length h) = Some m.
Proof.
  unfold Heap.parseMessageObject, parseMessageObject, Heap.bindSt, Heap.new.
  destruct (heap_parseMessageObject_loop c this lines h ∅ [])
    as (acc' & tail' & -> & Hacc).
  exists (h ++ Heap.ORecord acc' :: tail')%list. split; [| split].
  - destruct (parseMessageObject_loop c ∅ lines); reflexivity.
  - apply take_app_length.
  - intros m Hm. unfold Heap.record.
    rewrite list_lookup_middle by reflexivity. now rewrite (Hacc m Hm).
Qed.
(** Writing to one object behind an allocation: the other objects, and the
    objects in front of both, are as they were. *)
Lemma lookup_alter_snoc_ne {A : Type} (f : A -> A) (s : list A) (o : A)
  (target j : nat) :
  (j < length s)%nat -> j <> target ->
  alter f target (s ++ [o])%list !! j = s !! j.
Proof.
  intros Hj Hne. rewrite list_lookup_alter_ne by lia.
  now apply lookup_app_l.
Qed.

Lemma lookup_alter_snoc_eq {A : Type} (f : A -> A) (s : list A) (o x : A)
  (target : nat) :
  s !! target = Some x ->
  alter f target (s ++ [o])%list !! target = Some (f x).
Proof.
  intros Hx. rewrite list_lookup_alter_eq.
  rewrite lookup_app_l by (eapply lookup_lt_Some; eassumption).
  now rewrite Hx.
Qed.

Lemma take_alter_snoc {A : Type} (f : A -> A) (s : list A) (o : A)
  (target n : nat) :
  (n <= target)%nat -> (n <= length s)%nat ->
  take n (alter f target (s ++ [o])%list) = take n s.
Proof.
  intros Ht Hs. rewrite take_alter_ge by assumption.
  now apply take_app_le.
Qed.

(** [parseMessageLine] followed by [Object.assign(target, _)]. *)
Lemma heap_parse_assign (c : MpdClient) (this target : Heap.loc)
  (line : string) (s : Heap.Store) :
  Heap.bindSt (Heap.parseMessageLine this line)
    (fun _message => Heap.assign target _message) s =
  match parseMessageLine c line with
  | Ok m =>
      (Ok tt,
       alter (Heap.onRecord (fun o => objectAssign o m)) target
         (s ++ [Heap.ORecord m])%list)
  | Throw e => (Throw e, (s ++ [Heap.ORecord ∅])%list)
  end.
Proof.
  unfold Heap.bindSt. rewrite (heap_parseMessageLine c).
  destruct (parseMessageLine c line) as [m | e]; [| reflexivity].
  unfold Heap.assign. now rewrite list_lookup_middle by reflexivity.
Qed.

(** The loop of [parseMessageList] on the store, next to the functional
    loop: the array at [length h] lists references to distinct records
    allocated behind it, one for each record of the functional state, and
    [current] is the reference the functional state's index stands for. *)
Lemma heap_parseMessageList_loop (c : MpdClient) (this : Heap.loc)
  (delimiter : string) (lines : list string) :
  forall (h s : Heap.Store) (refs : list Heap.loc)
         (current : option Heap.loc) (st : ListState),
    take (length h) s = h ->
    s !! length h = Some (Heap.OArray refs) ->
    Forall2 (fun r m => s !! r = Some (Heap.ORecord m) /\ (length h < r)%nat)
      refs (result st) ->
    NoDup refs ->
    match message st with
    | Some i => current = refs !! i /\ (i < length refs)%nat
    | None => current = None
    end ->
    exists s',
      Heap.parseMessageList_loop this delimiter (length h) current lines s =
      (match parseMessageList_loop c delimiter st lines with
       | Ok _ => Ok tt
       | Throw e => Throw e
       end, s') /\
      take (length h) s' = h /\
      forall st', parseMessageList_loop c delimiter st lines = Ok st' ->
        exists refs',
          s' !! length h = Some (Heap.OArray refs') /\
          Forall2 (fun r m => s' !! r = Some (Heap.ORecord m))
            refs' (result st').
Proof.
  induction lines as [| line rest IH];
    intros h s refs current [rs mi] Htake Harr Hrecs Hnd Hcur;
    cbn [message result] in *.
  - exists s. split; [reflexivity |]. split; [assumption |].
    intros st' [= <-]. exists refs. split; [assumption |].
    eapply Forall2_impl; [exact Hrecs |]. now intros r m [H _].
  - assert (Hh : (length h < length s)%nat)
      by (eapply lookup_lt_Some; eassumption).
    assert (Hlen : length refs = length rs)
      by (eapply Forall2_length; eassumption).
    cbn [Heap.parseMessageList_loop parseMessageList_loop].
    unfold parseMessageList_step.
    destruct (Js.startsWith delimiter line) eqn:Hstart.
    + (* a new record is allocated and pushed *)
      unfold Heap.bindSt at 1 2 3 4. unfold Heap.new, Heap.push, Heap.ret.
      cbn [message result].
      match goal with
      | |- context [Heap.bindSt _ _ ?store] => set (s1 := store)
      end.
      assert (Hlen1 : length s1 = S (length s)).
      { unfold s1. rewrite length_alter, length_app. cbn. lia. }
      assert (Harr1 : s1 !! length h
                      = Some (Heap.OArray (refs ++ [length s])%list)).
      { unfold s1. now rewrite (lookup_alter_snoc_eq _ _ _ _ _ Harr). }
      assert (Hnew1 : s1 !! length s = Some (Heap.ORecord ∅)).
      { unfold s1. rewrite list_lookup_alter_ne by lia.
        now apply list_lookup_middle. }
      assert (Hold1 : forall j, (length h < j < length s)%nat ->
                                s1 !! j = s !! j).
      { intros j Hj. unfold s1. apply lookup_alter_snoc_ne; lia. }
      assert (Htake1 : take (length h) s1 = h).
      { unfold s1. rewrite take_alter_snoc by lia. assumption. }
      rewrite (heap_parse_assign c).
      destruct (parseMessageLine c line) as [m | e]; cbn [bind].
      * rewrite alter_fresh.
        match goal with
        | |- context [Heap.parseMessageList_loop _ _ _ _ _ ?store] =>
            set (s2 := store)
        end.
        apply (IH h s2 (refs ++ [length s])%list (Some (length s))
                 {| result := (rs ++ [objectAssign ∅ m])%list;
                    message := Some (length rs) |}).
        -- unfold s2. rewrite take_alter_snoc by lia. assumption.
        -- unfold s2. rewrite lookup_alter_snoc_ne by lia. assumption.
        -- cbn [result]. apply Forall2_app.
           ++ eapply Forall2_impl; [exact Hrecs |].
              intros r m' [Hr Hlt]. split; [| assumption].
              pose proof (lookup_lt_Some _ _ _ Hr) as Hr'.
              unfold s2. rewrite lookup_alter_snoc_ne by lia.
              rewrite Hold1 by lia. assumption.
           ++ constructor; [| constructor]. split; [| lia].
              unfold s2.
              now rewrite (lookup_alter_snoc_eq _ _ _ _ _ Hnew1).
        -- apply NoDup_app. split; [assumption |].
           split; [| apply NoDup_singleton].
           intros r Hr Hin. apply list_elem_of_singleton in Hin. subst r.
           apply list_elem_of_lookup_1 in Hr as [i Hi].
           destruct (Forall2_lookup_l _ _ _ _ _ Hrecs Hi)
             as (m' & _ & Hm' & _).
           apply lookup_lt_Some in Hm'. lia.
        -- cbn [message]. split.
           ++ symmetry. apply list_lookup_middle. lia.
           ++ rewrite length_app. cbn. lia.
      * exists (s1 ++ [Heap.ORecord ∅])%list. split; [reflexivity |].
        split; [| discriminate].
        rewrite take_app_le by lia. assumption.
    + (* the line goes to the record pushed last, if there is one *)
      unfold Heap.bindSt at 1 2. unfold Heap.ret at 1.
      destruct mi as [i |]; cbn [message result].
      * destruct Hcur as [-> Hi].
        destruct (lookup_lt_is_Some_2 _ _ Hi) as [r Hr]. rewrite Hr.
        destruct (Forall2_lookup_l _ _ _ _ _ Hrecs Hr)
          as (cur & Hcur & Hsr & Hhr).
        pose proof (lookup_lt_Some _ _ _ Hsr) as Hrs.
        rewrite (heap_parse_assign c).
        destruct (parseMessageLine c line) as [m | e]; cbn [bind].
        -- match goal with
           | |- context [Heap.parseMessageList_loop _ _ _ _ _ ?store] =>
               set (s2 := store)
           end.
           apply (IH h s2 refs (Some r)
                    {| result := alter (fun o => objectAssign o m) i rs;
                       message := Some i |}).
           ++ unfold s2. rewrite take_alter_snoc by lia. assumption.
           ++ unfold s2. rewrite lookup_alter_snoc_ne by lia. assumption.
           ++ cbn [result]. apply Forall2_same_length_lookup.
              split; [now rewrite length_alter |].
              intros j x y Hx Hy.
              destruct (Forall2_lookup_l _ _ _ _ _ Hrecs Hx)
                as (y0 & Hy0 & Hsx & Hhx).
              split; [| assumption].
              destruct (decide (j = i)) as [-> | Hne].
              ** rewrite list_lookup_alter_eq, Hy0 in Hy.
                 injection Hy as <-.
                 pose proof (eq_trans (eq_sym Hx) Hr) as Hxr.
                 injection Hxr as ->.
                 unfold s2.
                 now rewrite (lookup_alter_snoc_eq _ _ _ _ _ Hsx).
              ** rewrite list_lookup_alter_ne in Hy by lia.
                 pose proof (eq_trans (eq_sym Hy) Hy0) as Hyy.
                 injection Hyy as ->.
                 assert (x <> r).
                 { intros ->. apply Hne.
                   exact (NoDup_lookup _ _ _ _ Hnd Hx Hr). }
                 unfold s2. rewrite lookup_alter_snoc_ne; [assumption | | assumption].
                 eapply lookup_lt_Some; eassumption.
           ++ assumption.
           ++ cbn [message]. split; [now symmetry | assumption].
        -- exists (s ++ [Heap.ORecord ∅])%list. split; [reflexivity |].
           split; [| discriminate].
           rewrite take_app_le by lia. assumption.
      * subst current. unfold Heap.ret. cbn [bind].
        apply (IH h s refs None {| result := rs; message := None |});
          try assumption. reflexivity.
Qed.
(** [parseMessageList] on the store: the reference it returns is the first
    free position, the objects that existed are as they were, and the
    reference stands for the records of the functional parser. *)
Lemma heap_parseMessageList (c : MpdClient) (this : Heap.loc)
  (lines : list string) (h : Heap.Store) :
  exists s,
    Heap.parseMessageList this lines h =
    (match parseMessageList c lines with
     | Ok _ => Ok (length h)
     | Throw e => Throw e
     end, s) /\
    take (length h) s = h /\
    forall l, parseMessageList c lines = Ok l ->
              Heap.records s (length h) = Some l.
Proof.
  unfold Heap.parseMessageList, parseMessageList.
  destruct (lines !! 0%nat) as [first |].
  - unfold Heap.bindSt at 1. unfold Heap.new.
    destruct (heap_parseMessageList_loop c this
                (Js.substring first 0 (Js.indexOf ":" first + 1)) lines
                h (h ++ [Heap.OArray []])%list [] None
                {| result := []; message := None |})
      as (s & Hrun & Htake & Hrecs).
    + apply take_app_length.
    + now apply list_lookup_middle.
    + constructor.
    + apply NoDup_nil_2.
    + reflexivity.
    + exists s. unfold Heap.bindSt. rewrite Hrun.
      destruct (parseMessageList_loop c _ _ lines) as [st |] eqn:Hloop;
        cbn [bind].
      * split; [reflexivity |]. split; [assumption |].
        intros l [= <-]. destruct (Hrecs st eq_refl) as (refs & Harr & Hall).
        unfold Heap.records. rewrite Harr. apply mapM_Some_2.
        eapply Forall2_impl; [exact Hall |].
        intros r m Hr. unfold Heap.record. now rewrite Hr.
      * split; [reflexivity |]. split; [assumption | discriminate].
  - exists h. split; [reflexivity |]. split; [| discriminate].
    apply firstn_all.
Qed.

(** What an object was before later allocations and writes behind it. *)
Lemma lookup_frame {A : Type} (s1 s2 : list A) (r : nat) (x : A) :
  take (length s1) s2 = s1 -> s1 !! r = Some x -> s2 !! r = Some x.
Proof.
  intros Htake Hx. pose proof (lookup_lt_Some _ _ _ Hx) as Hr.
  rewrite <- (lookup_take_lt s2 (length s1) r) by assumption.
  now rewrite Htake.
Qed.

Lemma record_frame (s1 s2 : Heap.Store) (r : Heap.loc) (m : MpdMessage) :
  take (length s1) s2 = s1 ->
  Heap.record s1 r = Some m -> Heap.record s2 r = Some m.
Proof.
  unfold Heap.record. intros Htake Hm.
  destruct (s1 !! r) as [o |] eqn:Ho; [| discriminate].
  now rewrite (lookup_frame s1 s2 r o Htake Ho).
Qed.

Lemma records_frame (s1 s2 : Heap.Store) (r : Heap.loc)
  (l : list MpdMessage) :
  take (length s1) s2 = s1 ->
  Heap.records s1 r = Some l -> Heap.records s2 r = Some l.
Proof.
  unfold Heap.records. intros Htake Hl.
  destruct (s1 !! r) as [o |] eqn:Ho; [| discriminate].
  rewrite (lookup_frame s1 s2 r o Htake Ho).
  destruct o as [| items |]; try discriminate.
  apply mapM_Some_2. apply mapM_Some_1 in Hl.
  eapply Forall2_impl; [exact Hl |].
  intros r' m Hm. now apply (record_frame s1 s2).
Qed.

(** The output of a parse on the store is the output of the functional
    parser, whatever the store and whatever [this] refers to. *)
Lemma heap_object_output (c : MpdClient) (this : Heap.loc)
  (lines : list string) (h : Heap.Store) :
  Heap.output Heap.record (Heap.parseMessageObject this lines h) =
  match parseMessageObject c lines with
  | Ok m => Ok (Some m)
  | Throw e => Throw e
  end.
Proof.
  destruct (heap_parseMessageObject c this lines h) as (s & -> & _ & Hm).
  unfold Heap.output. cbn [fst snd].
  destruct (parseMessageObject c lines) as [m | e]; [| reflexivity].
  now rewrite (Hm m eq_refl).
Qed.

Lemma heap_list_output (c : MpdClient) (this : Heap.loc)
  (lines : list string) (h : Heap.Store) :
  Heap.output Heap.records (Heap.parseMessageList this lines h) =
  match parseMessageList c lines with
  | Ok l => Ok (Some l)
  | Throw e => Throw e
  end.
Proof.
  destruct (heap_parseMessageList c this lines h) as (s & -> & _ & Hl).
  unfold Heap.output. cbn [fst snd].
  destruct (parseMessageList c lines) as [l | e]; [| reflexivity].
  now rewrite (Hl l eq_refl).
Qed.

Lemma heap_object_frame (this : Heap.loc) (lines : list string)
  (h : Heap.Store) :
  take (length h) (snd (Heap.parseMessageObject this lines h)) = h.
Proof.
  now destruct (heap_parseMessageObject aClient this lines h)
    as (s & -> & Htake & _).
Qed.

Lemma heap_list_frame (this : Heap.loc) (lines : list string)
  (h : Heap.Store) :
  take (length h) (snd (Heap.parseMessageList this lines h)) = h.
Proof.
  now destruct (heap_parseMessageList aClient this lines h)
    as (s & -> & Htake & _).
Qed.

(** The result of a parse reads the same after a later parse. *)
Lemma heap_object_kept (this this' : Heap.loc) (lines lines' : list string)
  (h : Heap.Store) :
  let first := Heap.parseMessageObject this lines h in
  let second := Heap.parseMessageObject this' lines' (snd first) in
  Heap.output Heap.record (fst first, snd second) =
  Heap.output Heap.record first.
Proof.
  cbv zeta.
  pose proof (heap_object_frame this' lines'
                (snd (Heap.parseMessageObject this lines h))) as Hframe.
  destruct (heap_parseMessageObject aClient this lines h)
    as (s & Hrun & _ & Hm).
  rewrite Hrun in *. cbn [fst snd] in *. unfold Heap.output. cbn [fst snd].
  destruct (parseMessageObject aClient lines) as [m | e]; [| reflexivity].
  rewrite (Hm m eq_refl).
  now rewrite (record_frame _ _ _ _ Hframe (Hm m eq_refl)).
Qed.

Lemma heap_list_kept (this this' : Heap.loc) (lines lines' : list string)
  (h : Heap.Store) :
  let first := Heap.parseMessageList this lines h in
  let second := Heap.parseMessageList this' lines' (snd first) in
  Heap.output Heap.records (fst first, snd second) =
  Heap.output Heap.records first.
Proof.
  cbv zeta.
  pose proof (heap_list_frame this' lines'
                (snd (Heap.parseMessageList this lines h))) as Hframe.
  destruct (heap_parseMessageList aClient this lines h)
    as (s & Hrun & _ & Hl).
  rewrite Hrun in *. cbn [fst snd] in *. unfold Heap.output. cbn [fst snd].
  destruct (parseMessageList aClient lines) as [l | e]; [| reflexivity].
  rewrite (Hl l eq_refl).
  now rewrite (records_frame _ _ _ _ Hframe (Hl l eq_refl)).
Qed.

(** Two parses in a row on a store that holds the client: the second
    list is a new array of new records, equal to the first. *)
Example store_parse_twice :
  let h := [Heap.OClient aClient] in
  let lines := ["file: a.mp3"; "Time: 10"; "file: b.mp3"; "Time: 20"] in
  let first := Heap.parseMessageList 0%nat lines h in
  let second := Heap.parseMessageList 0%nat lines (snd first) in
  fst first = Ok 1%nat /\
  fst second = Ok 8%nat /\
  snd first !! 1%nat = Some (Heap.OArray [2; 5]%nat) /\
  snd second !! 8%nat = Some (Heap.OArray [9; 12]%nat) /\
  Heap.output Heap.records first =
  Ok (Some [ {[ "file" := VString "a.mp3"; "duration" := VNumber (Int 10) ]};
             {[ "file" := VString "b.mp3"; "duration" := VNumber (Int 20) ]} ]) /\
  Heap.output Heap.records second = Heap.output Heap.records first.
Proof.
  cbv zeta. repeat (split; [vm_compute; reflexivity |]).
  vm_compute. reflexivity.
Qed.

(** C9: parsing carries no state from one call to the next.  Take any
    store, any reference for [this], and any lines; parse the lines, and
    parse them again on the store the first parse left.  In object mode
    and in list mode alike: the second output is identical to the first;
    the first result still reads the same after the second parse; each
    parse leaves every object that existed before it as it was, the
    client and the first result included; the output is the same from
    any other store and on any other [this]; and it is the record, the
    list of records or the error of the functional parsers, so the
    reference returned always stands for a value. *)
Theorem parsing_twice_same_output (this : Heap.loc) (lines : list string)
  (h : Heap.Store) :
  let object1 := Heap.parseMessageObject this lines h in
  let object2 := Heap.parseMessageObject this lines (snd object1) in
  let list1 := Heap.parseMessageList this lines h in
  let list2 := Heap.parseMessageList this lines (snd list1) in
  (Heap.output Heap.record object2 = Heap.output Heap.record object1 /\
   Heap.output Heap.record (fst object1, snd object2)
   = Heap.output Heap.record object1 /\
   take (length h) (snd object1) = h /\
   take (length (snd object1)) (snd object2) = snd object1) /\
  (Heap.output Heap.records list2 = Heap.output Heap.records list1 /\
   Heap.output Heap.records (fst list1, snd list2)
   = Heap.output Heap.records list1 /\
   take (length h) (snd list1) = h /\
   take (length (snd list1)) (snd list2) = snd list1) /\
  (forall (h' : Heap.Store) (this' : Heap.loc),
     Heap.output Heap.record (Heap.parseMessageObject this' lines h')
     = Heap.output Heap.record object1 /\
     Heap.output Heap.records (Heap.parseMessageList this' lines h')
     = Heap.output Heap.records list1) /\
  forall c : MpdClient,
    Heap.output Heap.record object1
    = match parseMessageObject c lines with
      | Ok m => Ok (Some m)
      | Throw e => Throw e
      end /\
    Heap.output Heap.records list1
    = match parseMessageList c lines with
      | Ok l => Ok (Some l)
      | Throw e => Throw e
      end.
Proof.
  cbv zeta. split; [| split; [| split]]; cycle 3.
  { intros c. split; [apply heap_object_output | apply heap_list_output]. }
  - split; [| split; [| split]].
    + now rewrite !(heap_object_output aClient).
    + apply heap_object_kept.
    + apply heap_object_frame.
    + apply heap_object_frame.
  - split; [| split; [| split]].
    + now rewrite !(heap_list_output aClient).
    + apply heap_list_kept.
    + apply heap_list_frame.
    + apply heap_list_frame.
  - intros h' this'.
    now rewrite !(heap_object_output aClient), !(heap_list_output aClient).
Qed.

(** * Further properties *)

(** ** The field coercer: when a line fails *)

Lemma split_colon_space_from_nonempty (s cur : string) :
  exists piece pieces, Js.split_colon_space_from cur s = piece :: pieces.
Proof.
  revert cur. induction s as [| c s IH]; intros cur.
  - simpl. eauto.
  - destruct s as [| d s'].
    + simpl. eauto.
    + change (Js.split_colon_space_from cur (String c (String d s')))
        with (if Ascii.eqb c ":" && Js.isWhiteSpace d
              then cur :: Js.split_colon_space_from EmptyString s'
              else Js.split_colon_space_from (Js.snoc cur c) (String d s')).
      destruct (Ascii.eqb c ":" && Js.isWhiteSpace d); eauto.
Qed.

Lemma split_colon_space_from_two (s cur : string) :
  hasSeparator s = true ->
  exists key value pieces,
    Js.split_colon_space_from cur s = key :: value :: pieces.
Proof.
  revert cur. induction s as [| c s IH]; intros cur Hs; [discriminate |].
  destruct s as [| d s']; [discriminate |].
  change (hasSeparator (String c (String d s')))
    with ((Ascii.eqb c ":" && Js.isWhiteSpace d)
          || hasSeparator (String d s')) in Hs.
  change (Js.split_colon_space_from cur (String c (String d s')))
    with (if Ascii.eqb c ":" && Js.isWhiteSpace d
          then cur :: Js.split_colon_space_from EmptyString s'
          else Js.split_colon_space_from (Js.snoc cur c) (String d s')).
  destruct (Ascii.eqb c ":" && Js.isWhiteSpace d).
  - destruct (split_colon_space_from_nonempty s' EmptyString)
      as (piece & pieces & ->). eauto.
  - apply IH. exact Hs.
Qed.

(** A line in which [/:\s/] matches has a key and a value. *)
Lemma keyValue_separator (line : string) :
  hasSeparator line = true ->
  exists key value, keyValue line = (key, Some value).
Proof.
  intros Hs. unfold keyValue, Js.split_colon_space.
  destruct (split_colon_space_from_two line EmptyString Hs)
    as (key & value & pieces & ->). eauto.
Qed.

Lemma parseMessageLine_with_value (this : MpdClient) (line key value : string) :
  keyValue line = (key, Some value) ->
  exists m, parseMessageLine this line = Ok m.
Proof.
  intros Hkv. unfold parseMessageLine. rewrite Hkv.
  repeat match goal with
         | |- context [if ?b then _ else _] => destruct b
         end; eauto.
Qed.

Lemma parseMessageLine_throws_inv (this : MpdClient) (line : string)
  (e : JsError) :
  parseMessageLine this line = Throw e ->
  (line = "time" \/ line = "audio") /\ e = TypeError "split".
Proof.
  destruct (hasSeparator line) eqn:Hs.
  - destruct (keyValue_separator line Hs) as (key & value & Hkv).
    destruct (parseMessageLine_with_value this line key value Hkv)
      as [m ->]. discriminate.
  - unfold parseMessageLine. rewrite (keyValue_no_separator line Hs).
    destruct (oneOf line integerKeys); [discriminate |].
    destruct (String.eqb line "directory"); [discriminate |].
    destruct (String.eqb line "Last-Modified"); [discriminate |].
    destruct (String.eqb line "Time"); [discriminate |].
    destruct (String.eqb line "song"); [discriminate |].
    destruct (String.eqb line "songid"); [discriminate |].
    destruct (String.eqb_spec line "time") as [-> | _].
    { intros H. injection H as <-. auto. }
    destruct (String.eqb line "elapsed"); [discriminate |].
    destruct (String.eqb line "bitrate"); [discriminate |].
    destruct (String.eqb_spec line "audio") as [-> | _].
    { intros H. injection H as <-. auto. }
    discriminate.
Qed.

Lemma parseMessageLine_ok (this : MpdClient) (line : string) :
  line <> "time" -> line <> "audio" ->
  exists m, parseMessageLine this line = Ok m.
Proof.
  intros Htime Haudio.
  destruct (parseMessageLine this line) as [m | e] eqn:E; [eauto |].
  apply parseMessageLine_throws_inv in E as [[-> | ->] _]; contradiction.
Qed.

(** X1: the field coercer fails on exactly two lines.  [parseMessageLine]
    throws if and only if the line is [time] or [audio] alone (the key
    with no separator after it), and the error is then the [TypeError] of
    [value.split] on [undefined]; every other line, with or without a
    separator, yields a record. *)
Theorem parseMessageLine_throws_iff (this : MpdClient) (line : string)
  (e : JsError) :
  parseMessageLine this line = Throw e <->
  (line = "time" \/ line = "audio") /\ e = TypeError "split".
Proof.
  split.
  - apply parseMessageLine_throws_inv.
  - intros [[-> | ->] ->]; reflexivity.
Qed.

(** ** The message assembler: how parses compose *)

Lemma parseMessageObject_loop_from (this : MpdClient) (lines : list string)
  (record : MpdMessage) :
  parseMessageObject_loop this record lines =
  match parseMessageObject this lines with
  | Ok m => Ok (m ∪ record)
  | Throw e => Throw e
  end.
Proof.
  unfold parseMessageObject. revert record.
  induction lines as [| line rest IH]; intros record.
  - cbn. now rewrite (left_id_L ∅ (∪)).
  - cbn [parseMessageObject_loop].
    destruct (parseMessageLine this line) as [message | e]; cbn [bind];
      [| reflexivity].
    rewrite (IH (objectAssign record message)), (IH (objectAssign ∅ message)).
    destruct (parseMessageObject_loop this ∅ rest) as [m | e']; [| reflexivity].
    unfold objectAssign.
    now rewrite (right_id_L ∅ (∪)), (assoc_L (∪)).
Qed.

(** X2: object mode composes by overwriting.  Parsing the lines [l1 ++ l2]
    fails where parsing [l1] or else [l2] fails, and otherwise returns the
    record of [l2] laid over the record of [l1]: a field set in both has
    the value from [l2] (the last line that sets a field wins). *)
Theorem parseMessageObject_app (this : MpdClient) (l1 l2 : list string) :
  parseMessageObject this (l1 ++ l2) =
  match parseMessageObject this l1 with
  | Throw e => Throw e
  | Ok m1 =>
      match parseMessageObject this l2 with
      | Throw e => Throw e
      | Ok m2 => Ok (m2 ∪ m1)
      end
  end.
Proof.
  unfold parseMessageObject at 1 2. generalize (∅ : MpdMessage) as record.
  induction l1 as [| line rest IH]; intros record.
  - cbn. apply parseMessageObject_loop_from.
  - cbn [app parseMessageObject_loop].
    destruct (parseMessageLine this line) as [message | e]; cbn [bind];
      [apply IH | reflexivity].
Qed.

(** *** List mode *)

Lemma startsWith_substring (k : nat) (s : string) :
  Js.startsWith (String.substring 0 k s) s = true.
Proof.
  revert k. induction s as [| c s IH]; intros [| k]; try reflexivity.
  cbn. now rewrite Ascii.eqb_refl, IH.
Qed.

Lemma substring_from_start (s : string) (stop : Z) :
  Js.substring s 0 stop = String.substring 0 (Z.to_nat (Js.clamp s stop)) s.
Proof.
  unfold Js.substring, Js.clamp, Js.len.
  replace (Z.min (Z.max 0 0) (Z.of_nat (String.length s))) with 0 by lia.
  set (b := Z.min (Z.max stop 0) (Z.of_nat (String.length s))).
  replace (Z.min 0 b) with 0 by lia. replace (Z.max 0 b - 0) with b by lia.
  reflexivity.
Qed.

(** The first line starts with the delimiter made from it. *)
Lemma startsWith_delimiterOf (first : string) :
  Js.startsWith (delimiterOf first) first = true.
Proof.
  unfold delimiterOf. rewrite substring_from_start. apply startsWith_substring.
Qed.

Lemma parseMessageList_cons (this : MpdClient) (first : string)
  (rest : list string) :
  parseMessageList this (first :: rest) =
  (let* st := parseMessageList_loop this (delimiterOf first)
                {| result := []; message := None |} (first :: rest) in
   Ok (result st)).
Proof. reflexivity. Qed.

Lemma parseMessageList_step_length (this : MpdClient) (delimiter : string)
  (st st' : ListState) (line : string) :
  parseMessageList_step this delimiter st line = Ok st' ->
  length (result st') =
  (length (result st) + if Js.startsWith delimiter line then 1 else 0)%nat.
Proof.
  unfold parseMessageList_step.
  destruct (Js.startsWith delimiter line); cbn [message result].
  - destruct (parseMessageLine this line); cbn [bind]; [| discriminate].
    intros [= <-]. cbn [result]. now rewrite length_alter, length_app.
  - destruct (message st) as [ref |].
    + destruct (parseMessageLine this line); cbn [bind]; [| discriminate].
      intros [= <-]. cbn [result]. rewrite length_alter. lia.
    + intros [= <-]. lia.
Qed.

Lemma parseMessageList_loop_length (this : MpdClient) (delimiter : string)
  (lines : list string) (st st' : ListState) :
  parseMessageList_loop this delimiter st lines = Ok st' ->
  length (result st') =
  (length (result st)
   + length (List.filter (Js.startsWith delimiter) lines))%nat.
Proof.
  revert st. induction lines as [| line rest IH]; intros st.
  - intros [= <-]. cbn. lia.
  - cbn [parseMessageList_loop List.filter].
    destruct (parseMessageList_step this delimiter st line) as [st1 |] eqn:E;
      cbn [bind]; [| discriminate].
    intros H. rewrite (IH _ H), (parseMessageList_step_length _ _ _ _ _ E).
    destruct (Js.startsWith delimiter line); cbn [length]; lia.
Qed.

(** X3: list mode returns one record for each line that starts with the
    delimiter, the text of the first line up to and including its first
    colon (empty when it has no colon).  A successful parse of a
    non-empty response has as many records as there are such lines, and
    at least one, since the first line starts with its own delimiter. *)
Theorem parseMessageList_length (this : MpdClient) (first : string)
  (rest : list string) (records : list MpdMessage) :
  parseMessageList this (first :: rest) = Ok records ->
  length records =
    length (List.filter (Js.startsWith (delimiterOf first)) (first :: rest)) /\
  (1 <= length records)%nat.
Proof.
  rewrite parseMessageList_cons.
  destruct (parseMessageList_loop this (delimiterOf first) _ (first :: rest))
    as [st |] eqn:E; cbn [bind]; [| discriminate].
  intros [= <-]. rewrite (parseMessageList_loop_length _ _ _ _ _ E).
  cbn [result length List.filter]. rewrite startsWith_delimiterOf.
  cbn [length]. lia.
Qed.

Lemma parseMessageList_length_witness :
  parseMessageList aClient ["Id: 1"; "Pos: 0"; "Id: 2"; "Idle"; "Id: 3"] =
    Ok [ {[ "id" := VNumber (Int 1); "pos" := VNumber (Int 0) ]};
         {[ "id" := VNumber (Int 2); "idle" := VUndefined ]};
         {[ "id" := VNumber (Int 3) ]} ] /\
  length (List.filter (Js.startsWith (delimiterOf "Id: 1"))
            ["Id: 1"; "Pos: 0"; "Id: 2"; "Idle"; "Id: 3"]) = 3%nat.
Proof.
  assert (H : parseMessageList aClient
                ["Id: 1"; "Pos: 0"; "Id: 2"; "Idle"; "Id: 3"] =
              Ok [ {[ "id" := VNumber (Int 1); "pos" := VNumber (Int 0) ]};
                   {[ "id" := VNumber (Int 2); "idle" := VUndefined ]};
                   {[ "id" := VNumber (Int 3) ]} ]).
  { vm_compute. reflexivity. }
  split; [exact H |].
  symmetry. exact (proj1 (parseMessageList_length aClient "Id: 1" _ _ H)).
Defined.

Lemma parseMessageList_loop_single (this : MpdClient) (delimiter : string)
  (rest : list string) (record : MpdMessage) :
  Forall (fun line => Js.startsWith delimiter line = false) rest ->
  parseMessageList_loop this delimiter
    {| result := [record]; message := Some 0%nat |} rest =
  match parseMessageObject_loop this record rest with
  | Ok m => Ok {| result := [m]; message := Some 0%nat |}
  | Throw e => Throw e
  end.
Proof.
  intros Hrest. revert record.
  induction Hrest as [| line rest Hline _ IH]; intros record.
  - reflexivity.
  - cbn [parseMessageList_loop parseMessageObject_loop].
    unfold parseMessageList_step. rewrite Hline. cbn [message result].
    destruct (parseMessageLine this line) as [m |]; cbn [bind];
      [| reflexivity].
    apply IH.
Qed.

(** X4: when no line after the first starts with the delimiter, list mode
    is object mode in a one-element array: it returns the single record
    that [parseMessageObject] builds from the same lines, and fails where
    that fails.  In particular the lines of another kind of entry (a
    [file:] line in a listing that began with [directory:]) are merged
    into the record of the entry before them. *)
Theorem parseMessageList_single_record (this : MpdClient) (first : string)
  (rest : list string) :
  Forall (fun line => Js.startsWith (delimiterOf first) line = false) rest ->
  parseMessageList this (first :: rest) =
  match parseMessageObject this (first :: rest) with
  | Ok m => Ok [m]
  | Throw e => Throw e
  end.
Proof.
  intros Hrest. rewrite parseMessageList_cons.
  unfold parseMessageObject.
  cbn [parseMessageList_loop parseMessageObject_loop].
  unfold parseMessageList_step. rewrite startsWith_delimiterOf.
  cbn [message result app length].
  destruct (parseMessageLine this first) as [m |]; cbn [bind];
    [| reflexivity].
  change (alter (fun o => objectAssign o m) 0%nat [(∅ : MpdMessage)])
    with [objectAssign ∅ m].
  rewrite (parseMessageList_loop_single _ _ _ _ Hrest).
  destruct (parseMessageObject_loop this (objectAssign ∅ m) rest);
    reflexivity.
Qed.

Lemma parseMessageList_single_record_witness :
  parseMessageList aClient ["directory: b"; "file: a"; "Time: 10"] =
  Ok [ {[ "file" := VString "a"; "isDir" := VNumber (Int 1);
          "duration" := VNumber (Int 10) ]} ].
Proof.
  refine (parseMessageList_single_record aClient "directory: b"
            ["file: a"; "Time: 10"] _).
  repeat constructor.
Defined.

Lemma indexOf_from_colonPos (s : string) (i : Z) :
  Js.indexOf_from ":" s i =
  match colonPos s with Some k => i + Z.of_nat k | None => -1 end.
Proof.
  revert i. induction s as [| c s IH]; intros i; [reflexivity |].
  cbn [Js.indexOf_from Js.startsWith colonPos].
  destruct (Ascii.eqb ":" c); cbn [andb].
  - lia.
  - rewrite IH. destruct (colonPos s); cbn [fmap option_fmap option_map]; lia.
Qed.

Lemma colonPos_lt (s : string) (k : nat) :
  colonPos s = Some k -> (k < String.length s)%nat.
Proof.
  revert k. induction s as [| c s IH]; intros k; [discriminate |].
  cbn [colonPos String.length]. destruct (Ascii.eqb ":" c).
  - intros [= <-]. lia.
  - destruct (colonPos s) as [k' |]; [| discriminate].
    intros [= <-]. specialize (IH k' eq_refl). lia.
Qed.

Lemma delimiterOf_colonPos (s : string) (k : nat) :
  colonPos s = Some k -> delimiterOf s = String.substring 0 (S k) s.
Proof.
  intros Hk. pose proof (colonPos_lt s k Hk) as Hlt.
  unfold delimiterOf, Js.indexOf.
  rewrite substring_from_start, indexOf_from_colonPos, Hk.
  unfold Js.clamp, Js.len. f_equal. lia.
Qed.

Lemma colonPos_of_indexOf (s : string) :
  0 <= Js.indexOf ":" s -> exists k, colonPos s = Some k.
Proof.
  unfold Js.indexOf. rewrite indexOf_from_colonPos.
  destruct (colonPos s); [eauto | lia].
Qed.

Lemma colonPos_startsWith (s t : string) (k : nat) :
  colonPos s = Some k ->
  Js.startsWith (String.substring 0 (S k) s) t = true ->
  colonPos t = Some k /\
  String.substring 0 (S k) t = String.substring 0 (S k) s.
Proof.
  revert t k. induction s as [| c s IH]; intros t k; [discriminate |].
  cbn [colonPos]. destruct (Ascii.eqb ":" c) eqn:Hc.
  - intros [= <-]. cbn [String.substring].
    destruct t as [| b t]; [discriminate |]. cbn [Js.startsWith].
    intros H. apply andb_prop in H as [Hb _].
    apply Ascii.eqb_eq in Hb as <-. cbn [colonPos]. rewrite Hc.
    split; [reflexivity |]. cbn [String.substring].
    destruct s, t; reflexivity.
  - destruct (colonPos s) as [k' |] eqn:Hs; [| discriminate].
    intros [= <-]. cbn [String.substring].
    destruct t as [| b t]; [discriminate |]. cbn [Js.startsWith].
    intros H. apply andb_prop in H as [Hb Ht].
    apply Ascii.eqb_eq in Hb as <-.
    destruct (IH t k' eq_refl Ht) as [Hk Hsub].
    cbn [colonPos String.substring]. rewrite Hc, Hk, Hsub. split; reflexivity.
Qed.

(** A line that starts with a delimiter that has a colon gives the same
    delimiter. *)
Lemma delimiterOf_startsWith (first line : string) :
  0 <= Js.indexOf ":" first ->
  Js.startsWith (delimiterOf first) line = true ->
  delimiterOf line = delimiterOf first.
Proof.
  intros Hidx Hstart. destruct (colonPos_of_indexOf first Hidx) as [k Hk].
  rewrite (delimiterOf_colonPos first k Hk) in *.
  destruct (colonPos_startsWith first line k Hk Hstart) as [Hl Hsub].
  now rewrite (delimiterOf_colonPos line k Hl).
Qed.

Lemma parseMessageList_step_shift (this : MpdClient) (delimiter : string)
  (front : list MpdMessage) (st : ListState) (line : string) :
  parseMessageList_step this delimiter (shiftState front st) line =
  match parseMessageList_step this delimiter st line with
  | Ok st' => Ok (shiftState front st')
  | Throw e => Throw e
  end.
Proof.
  destruct st as [records reference].
  unfold parseMessageList_step, shiftState.
  destruct (Js.startsWith delimiter line); cbn [message result].
  - destruct (parseMessageLine this line) as [m |]; cbn [bind];
      [| reflexivity].
    cbn [message result fmap option_fmap option_map].
    rewrite <- app_assoc, length_app, alter_app_r. reflexivity.
  - destruct reference as [ref |];
      cbn [fmap option_fmap option_map]; [| reflexivity].
    destruct (parseMessageLine this line) as [m |]; cbn [bind];
      [| reflexivity].
    cbn [message result fmap option_fmap option_map].
    now rewrite alter_app_r.
Qed.

Lemma parseMessageList_loop_shift (this : MpdClient) (delimiter : string)
  (front : list MpdMessage) (lines : list string) (st : ListState) :
  parseMessageList_loop this delimiter (shiftState front st) lines =
  match parseMessageList_loop this delimiter st lines with
  | Ok st' => Ok (shiftState front st')
  | Throw e => Throw e
  end.
Proof.
  revert st. induction lines as [| line rest IH]; intros st; [reflexivity |].
  cbn [parseMessageList_loop]. rewrite parseMessageList_step_shift.
  destruct (parseMessageList_step this delimiter st line); cbn [bind];
    [apply IH | reflexivity].
Qed.

Lemma parseMessageList_loop_app (this : MpdClient) (delimiter : string)
  (g h : list string) (st : ListState) :
  parseMessageList_loop this delimiter st (g ++ h) =
  (let* st1 := parseMessageList_loop this delimiter st g in
   parseMessageList_loop this delimiter st1 h).
Proof.
  revert st. induction g as [| line g IH]; intros st; [reflexivity |].
  cbn [app parseMessageList_loop].
  destruct (parseMessageList_step this delimiter st line); cbn [bind];
    [apply IH | reflexivity].
Qed.

(** A line that starts with the delimiter opens a record whatever the
    reference was. *)
Lemma parseMessageList_loop_restart (this : MpdClient) (delimiter : string)
  (st : ListState) (line : string) (rest : list string) :
  Js.startsWith delimiter line = true ->
  parseMessageList_loop this delimiter st (line :: rest) =
  parseMessageList_loop this delimiter
    (shiftState (result st) {| result := []; message := None |})
    (line :: rest).
Proof.
  intros Hline. cbn [parseMessageList_loop].
  unfold parseMessageList_step, shiftState. rewrite Hline.
  cbn [message result]. now rewrite app_nil_r.
Qed.

(** X5: list mode assembles a response group by group.  When the first
    line has a colon and the lines [hd :: h] begin with a line that
    starts with its delimiter, parsing [(first :: g) ++ hd :: h] returns
    the records of [first :: g] followed by the records of [hd :: h],
    and fails where the one or else the other fails: the records before
    a delimiter line are not touched by the lines after it. *)
Theorem parseMessageList_app (this : MpdClient) (first : string)
  (g : list string) (hd : string) (h : list string) :
  0 <= Js.indexOf ":" first ->
  Js.startsWith (delimiterOf first) hd = true ->
  parseMessageList this ((first :: g) ++ hd :: h) =
  match parseMessageList this (first :: g) with
  | Throw e => Throw e
  | Ok r1 =>
      match parseMessageList this (hd :: h) with
      | Throw e => Throw e
      | Ok r2 => Ok (r1 ++ r2)%list
      end
  end.
Proof.
  intros Hidx Hhd.
  change ((first :: g) ++ hd :: h)%list with (first :: (g ++ hd :: h))%list.
  rewrite !parseMessageList_cons, (delimiterOf_startsWith _ _ Hidx Hhd).
  change (first :: (g ++ hd :: h))%list with ((first :: g) ++ hd :: h)%list.
  rewrite parseMessageList_loop_app.
  destruct (parseMessageList_loop this (delimiterOf first) _ (first :: g))
    as [st1 |]; cbn [bind]; [| reflexivity].
  rewrite (parseMessageList_loop_restart _ _ st1 _ _ Hhd),
    parseMessageList_loop_shift.
  destruct (parseMessageList_loop this (delimiterOf first)
              {| result := []; message := None |} (hd :: h));
    reflexivity.
Qed.

Lemma parseMessageList_app_witness :
  parseMessageList aClient
    (["file: a.mp3"; "Time: 10"] ++ "file: b.mp3" :: ["Time: 20"]) =
  Ok ([ {[ "file" := VString "a.mp3"; "duration" := VNumber (Int 10) ]} ]
      ++ [ {[ "file" := VString "b.mp3"; "duration" := VNumber (Int 20) ]} ])%list.
Proof.
  refine (parseMessageList_app aClient "file: a.mp3" ["Time: 10"]
            "file: b.mp3" ["Time: 20"] _ _).
  - vm_compute. discriminate.
  - reflexivity.
Defined.

(** ** The response loop: what a call reads and returns *)

Lemma readLines_continues (pre tail result : list string)
  (tr : list IoEvent) :
  Forall continues pre ->
  readLines (pre ++ tail) result tr =
  readLines tail (result ++ dataLines pre)%list (tr ++ map EvRead pre)%list.
Proof.
  intros Hpre. revert result tr.
  induction Hpre as [| line pre [Hend Herr] _ IH]; intros result tr.
  - cbn. now rewrite !app_nil_r.
  - cbn [app map dataLines List.filter]. rewrite readLines_cons. cbv zeta.
    destruct (String.eqb_spec line MpdSignal.END) as [E | _];
      [contradiction |].
    rewrite Herr.
    destruct (Js.startsWith MpdSignal.VERSION line); cbn [negb];
      rewrite IH; fold (dataLines pre);
      rewrite <- ?app_assoc; reflexivity.
Qed.

Lemma sendCommand_run (this : MpdClient) (lines : list string)
  (command : string) (argument : option Argument) :
  run (sendCommand this (Accepted lines) command argument) =
  match readLines lines [] (callStart this command argument) with
  | (Ok result, tr) => (parseReply this command result, tr)
  | (Throw e, tr) => (Throw e, tr)
  end.
Proof.
  rewrite sendCommand_accepted. cbv zeta. fold (callStart this command argument).
  destruct (readLines lines [] _) as [[result | e] tr]; [| reflexivity].
  unfold parseReply.
  destruct (String.eqb command "playlistinfo" || String.eqb command "lsinfo");
    reflexivity.
Qed.

(** X6: a response that reaches the success marker.  When no line before
    the first [OK] line starts with [ACK], the call reads the lines up to
    and including that [OK] and none after it, and returns the parse of
    the lines read before it with every line that starts with the banner
    prefix [OK MPD] left out, wherever such a line stands. *)
Theorem success_marker_ends_response (this : MpdClient)
  (pre post : list string) (command : string) (argument : option Argument) :
  Forall continues pre ->
  run (sendCommand this (Accepted (pre ++ MpdSignal.END :: post))
         command argument) =
  (parseReply this command (dataLines pre),
   (callStart this command argument
    ++ map EvRead pre ++ [EvRead MpdSignal.END])%list).
Proof.
  intros Hpre. rewrite sendCommand_run, (readLines_continues _ _ _ _ Hpre).
  rewrite readLines_cons. cbv zeta. rewrite String.eqb_refl. cbn [app].
  now rewrite <- app_assoc.
Qed.

Lemma success_marker_ends_response_witness :
  run (sendCommand aClient
         (Accepted (["OK MPD 0.23.5"; "volume: 42"; "OK MPD again"; "repeat: 1"]
                    ++ "OK" :: ["volume: 7"; "ACK late"]))
         "status" None) =
  (Ok (ReplyObject {[ "volume" := VNumber (Int 42);
                      "repeat" := VNumber (Int 1) ]}),
   [EvConnect "10.0.0.2" 6600;
    EvWrite (textEncoder_encode ("status" +:+ newline));
    EvRead "OK MPD 0.23.5"; EvRead "volume: 42"; EvRead "OK MPD again";
    EvRead "repeat: 1"; EvRead "OK"]).
Proof.
  refine (success_marker_ends_response aClient
            ["OK MPD 0.23.5"; "volume: 42"; "OK MPD again"; "repeat: 1"]
            ["volume: 7"; "ACK late"] "status" None _).
  repeat (constructor; try discriminate).
Defined.

(** X7: a connection that closes before any success marker is taken for a
    complete response.  When no line is [OK] or starts with [ACK], the
    call returns what it returns for the same lines followed by [OK]: the
    end of the stream and the success marker are not told apart. *)
Theorem closed_stream_is_success (this : MpdClient) (lines : list string)
  (command : string) (argument : option Argument) :
  Forall continues lines ->
  fst (run (sendCommand this (Accepted lines) command argument)) =
    parseReply this command (dataLines lines) /\
  fst (run (sendCommand this (Accepted lines) command argument)) =
  fst (run (sendCommand this (Accepted (lines ++ [MpdSignal.END]))
              command argument)).
Proof.
  intros Hlines.
  assert (H1 : run (sendCommand this (Accepted lines) command argument) =
               (parseReply this command (dataLines lines),
                (callStart this command argument ++ map EvRead lines)%list)).
  { rewrite sendCommand_run.
    rewrite <- (app_nil_r lines) at 1.
    rewrite (readLines_continues _ _ _ _ Hlines). reflexivity. }
  assert (H2 : run (sendCommand this (Accepted (lines ++ [MpdSignal.END]))
                      command argument) =
               (parseReply this command (dataLines lines),
                (callStart this command argument
                 ++ map EvRead lines ++ [EvRead MpdSignal.END])%list)).
  { rewrite sendCommand_run, (readLines_continues _ _ _ _ Hlines).
    rewrite readLines_cons. cbv zeta. rewrite String.eqb_refl. cbn [app].
    now rewrite <- app_assoc. }
  rewrite H1, H2. split; reflexivity.
Qed.

Lemma closed_stream_is_success_witness :
  fst (run (sendCommand aClient (Accepted ["volume: 42"; "repeat: 1"])
              "status" None)) =
  fst (run (sendCommand aClient (Accepted (["volume: 42"; "repeat: 1"] ++ ["OK"]))
              "status" None)).
Proof.
  refine (proj2 (closed_stream_is_success aClient ["volume: 42"; "repeat: 1"]
                   "status" None _)).
  repeat (constructor; try discriminate).
Defined.

(** ** When a call succeeds *)

Lemma parseMessageObject_loop_ok (this : MpdClient) (lines : list string)
  (record : MpdMessage) :
  Forall (fun line => line <> "time" /\ line <> "audio") lines ->
  exists m, parseMessageObject_loop this record lines = Ok m.
Proof.
  intros Hlines. revert record.
  induction Hlines as [| line rest [Ht Ha] _ IH]; intros record.
  - cbn. eauto.
  - cbn [parseMessageObject_loop].
    destruct (parseMessageLine_ok this line Ht Ha) as [m ->]. cbn [bind].
    apply IH.
Qed.

Lemma parseMessageList_loop_ok (this : MpdClient) (delimiter : string)
  (lines : list string) (st : ListState) :
  Forall (fun line => line <> "time" /\ line <> "audio") lines ->
  exists st', parseMessageList_loop this delimiter st lines = Ok st'.
Proof.
  intros Hlines. revert st.
  induction Hlines as [| line rest [Ht Ha] _ IH]; intros st.
  - cbn. eauto.
  - cbn [parseMessageList_loop]. unfold parseMessageList_step.
    destruct (parseMessageLine_ok this line Ht Ha) as [m Hm].
    destruct (Js.startsWith delimiter line); cbn [message].
    + rewrite Hm. cbn [bind]. apply IH.
    + destruct (message st); [rewrite Hm |]; cbn [bind]; apply IH.
Qed.

(** X8: the calls that succeed.  When the response reaches [OK] with no
    [ACK] line before it, no data line is [time] or [audio] alone and,
    for the list verbs [playlistinfo] and [lsinfo], there is at least one
    data line, the call returns a reply: no other shape of a data line
    makes a call fail. *)
Theorem wellformed_response_succeeds (this : MpdClient)
  (pre post : list string) (command : string) (argument : option Argument) :
  Forall continues pre ->
  Forall (fun line => line <> "time" /\ line <> "audio") (dataLines pre) ->
  (String.eqb command "playlistinfo" || String.eqb command "lsinfo" = true ->
   dataLines pre <> []) ->
  exists reply,
    fst (run (sendCommand this (Accepted (pre ++ MpdSignal.END :: post))
                command argument)) = Ok reply.
Proof.
  intros Hpre Hdata Hlist.
  rewrite sendCommand_run, (readLines_continues _ _ _ _ Hpre).
  rewrite readLines_cons. cbv zeta. rewrite String.eqb_refl. cbn [app fst].
  unfold parseReply.
  destruct (String.eqb command "playlistinfo" || String.eqb command "lsinfo").
  - specialize (Hlist eq_refl).
    destruct (dataLines pre) as [| first rest] eqn:E; [contradiction |].
    rewrite parseMessageList_cons.
    destruct (parseMessageList_loop_ok this (delimiterOf first)
                (first :: rest) {| result := []; message := None |} Hdata)
      as [st ->].
    cbn [bind]. eauto.
  - unfold parseMessageObject.
    destruct (parseMessageObject_loop_ok this (dataLines pre) ∅ Hdata)
      as [m ->].
    eauto.
Qed.

Lemma wellformed_response_succeeds_witness :
  exists reply,
    fst (run (sendCommand aClient
                (Accepted (["OK MPD 0.23.5"; "file: a.mp3"; "no separator";
                            "Time: 10"] ++ "OK" :: []))
                "playlistinfo" None)) = Ok reply.
Proof.
  apply (wellformed_response_succeeds aClient
           ["OK MPD 0.23.5"; "file: a.mp3"; "no separator"; "Time: 10"] []
           "playlistinfo" None).
  - repeat (constructor; try discriminate).
  - repeat (constructor; try discriminate).
  - discriminate.
Defined.

(** ** Validation, the other way round *)

Lemma indexOf_from_absent (c : ascii) (s : string) (i : Z) :
  ~ In c (list_ascii_of_string s) ->
  Js.indexOf_from (String c EmptyString) s i = -1.
Proof.
  revert i. induction s as [| a s IH]; intros i Hnot; [reflexivity |].
  cbn [Js.indexOf_from Js.startsWith].
  destruct (Ascii.eqb_spec c a) as [-> | Hne]; cbn [andb].
  - exfalso. apply Hnot. now left.
  - apply IH. intros Hin. apply Hnot. now right.
Qed.

(** X9: [addSong] refuses nothing but the plus sign.  For every path with
    no [+] in it, [addSong] is the command [add] with that path as its
    argument: it performs the same operations on the connection and ends
    the same way (for the empty path the bare verb [add] is written). *)
Theorem addSong_without_plus_sends (this : MpdClient) (net : Network)
  (path : string) :
  ~ In "+"%char (list_ascii_of_string path) ->
  run (addSong this net path) =
  run (command_ this net "add" (Some (ArgString path))).
Proof.
  intros Hnot. unfold addSong, Js.indexOf.
  now rewrite (indexOf_from_absent "+" path 0 Hnot).
Qed.

Lemma addSong_without_plus_sends_witness :
  run (addSong aClient (Accepted ["OK"]) "rock & roll.mp3") =
  run (command_ aClient (Accepted ["OK"]) "add"
         (Some (ArgString "rock & roll.mp3"))).
Proof.
  apply (addSong_without_plus_sends aClient (Accepted ["OK"])
           "rock & roll.mp3").
  simpl. intuition discriminate.
Defined.

(** ** Numbers: printed into a command, read from a response *)

Lemma takeDigits_uint (d : Decimal.uint) :
  Num.takeDigits Num.decimalDigit (NilEmpty.string_of_uint d) =
  (uintDigits d, EmptyString).
Proof.
  induction d; cbn [Num.takeDigits NilEmpty.string_of_uint uintDigits];
    rewrite ?IHd; reflexivity.
Qed.

Lemma fold_uintDigits (d : Decimal.uint) (acc : Z) :
  fold_left (fun a x => a * 10 + x) (uintDigits d) acc =
  Z.of_N (Unsigned.of_lu (Decimal.rev d))
  + acc * 10 ^ Z.of_N (Unsigned.usize d).
Proof.
  revert acc.
  induction d; intros acc;
    cbn [uintDigits fold_left Unsigned.usize];
    [ cbn; lia | .. ];
    match goal with
    | |- context [Decimal.rev (?D d)] =>
        change (Decimal.rev (D d)) with (Decimal.revapp d (D Decimal.Nil));
        rewrite (Unsigned.of_lu_revapp d (D Decimal.Nil));
        let v := eval cbv in (Unsigned.of_lu (D Decimal.Nil)) in
        change (Unsigned.of_lu (D Decimal.Nil)) with v
    end;
    rewrite IHd, N2Z.inj_add, N2Z.inj_mul, N2Z.inj_pow, N2Z.inj_succ,
      Z.pow_succ_r by apply N2Z.is_nonneg;
    change (Z.of_N 10) with 10; cbn [Z.of_N]; lia.
Qed.

Lemma valueOf_uint (d : Decimal.uint) :
  Num.valueOf 10 (uintDigits d) = Z.of_uint d.
Proof.
  unfold Num.valueOf, Z.of_uint.
  rewrite fold_uintDigits, Unsigned.of_uint_alt. lia.
Qed.

Lemma uintDigits_nonempty (d : Decimal.uint) :
  d <> Decimal.Nil -> uintDigits d <> [].
Proof. destruct d; [contradiction | discriminate ..]. Qed.

Lemma trimStart_uint (d : Decimal.uint) :
  Num.trimStart (NilEmpty.string_of_uint d) = NilEmpty.string_of_uint d.
Proof. destruct d; reflexivity. Qed.

Lemma takeSign_uint (d : Decimal.uint) :
  Num.takeSign (NilEmpty.string_of_uint d) =
  (false, NilEmpty.string_of_uint d).
Proof. destruct d; reflexivity. Qed.

Lemma no_hex_prefix_uint (d : Decimal.uint) :
  Js.startsWith "0x" (NilEmpty.string_of_uint d)
  || Js.startsWith "0X" (NilEmpty.string_of_uint d) = false.
Proof. destruct d as [| d | | | | | | | | |]; try reflexivity. destruct d; reflexivity. Qed.

Lemma takeSign_minus (s : string) :
  Num.takeSign (Num.trimStart (String "-" s)) = (true, s).
Proof. reflexivity. Qed.

Lemma parseInt_uint (negative : bool) (d : Decimal.uint) :
  d <> Decimal.Nil ->
  (let '(radix, digit, s) :=
     if Js.startsWith "0x" (NilEmpty.string_of_uint d)
        || Js.startsWith "0X" (NilEmpty.string_of_uint d)
     then (16, Num.hexDigit, Js.substring_from (NilEmpty.string_of_uint d) 2)
     else (10, Num.decimalDigit, NilEmpty.string_of_uint d) in
   match Num.takeDigits digit s with
   | ([], _) => NaN
   | (ds, _) => Int (Num.signed negative (Num.valueOf radix ds))
   end) = Int (Num.signed negative (Z.of_uint d)).
Proof.
  intros Hd. rewrite no_hex_prefix_uint, takeDigits_uint.
  pose proof (uintDigits_nonempty d Hd) as Hne.
  pose proof (valueOf_uint d) as Hv.
  destruct (uintDigits d); [contradiction |]. now rewrite Hv.
Qed.

(** The decimal numeral of an integer reads back as that integer. *)
Lemma parseInt_string_of_Z (n : Z) :
  Num.parseInt_string (argumentText (ArgNumber n)) = Int n.
Proof.
  unfold argumentText, Num.parseInt_string.
  destruct n as [| p | p]; [reflexivity | |]; cbn [Z.to_int NilEmpty.string_of_int].
  - rewrite trimStart_uint, takeSign_uint.
    rewrite (parseInt_uint false _ (Unsigned.to_uint_nonnil p)).
    cbn [Num.signed]. unfold Z.of_uint. now rewrite Unsigned.of_to.
  - rewrite takeSign_minus.
    rewrite (parseInt_uint true _ (Unsigned.to_uint_nonnil p)).
    cbn [Num.signed]. unfold Z.of_uint. now rewrite Unsigned.of_to.
Qed.

Lemma not_Infinity_uint (d : Decimal.uint) :
  Js.startsWith "Infinity" (NilEmpty.string_of_uint d) = false.
Proof. destruct d; reflexivity. Qed.

Lemma parseFloat_string_of_Z (n : Z) :
  Num.parseFloat_string (argumentText (ArgNumber n)) = Int n.
Proof.
  unfold argumentText, Num.parseFloat_string.
  destruct n as [| p | p]; [reflexivity | |];
    cbn [Z.to_int NilEmpty.string_of_int];
    rewrite ?takeSign_minus, ?trimStart_uint, ?takeSign_uint;
    cbv beta iota;
    rewrite not_Infinity_uint, takeDigits_uint;
    cbn [app length Num.takeExponent]; rewrite app_nil_r;
    pose proof (uintDigits_nonempty _ (Unsigned.to_uint_nonnil p)) as Hne;
    pose proof (valueOf_uint (Pos.to_uint p)) as Hv;
    destruct (uintDigits (Pos.to_uint p)); [contradiction | | contradiction |];
    rewrite Hv; unfold Z.of_uint; rewrite Unsigned.of_to;
    cbn; f_equal; lia.
Qed.

Lemma hasSeparator_cons (c : ascii) (s : string) :
  Ascii.eqb c ":" = false ->
  hasSeparator s = false ->
  hasSeparator (String c s) = false.
Proof.
  intros Hc Hs. destruct s as [| d s']; [reflexivity |].
  change (hasSeparator (String c (String d s')))
    with ((Ascii.eqb c ":" && Js.isWhiteSpace d)
          || hasSeparator (String d s')).
  now rewrite Hc, Hs.
Qed.

Lemma hasSeparator_uint (d : Decimal.uint) :
  hasSeparator (NilEmpty.string_of_uint d) = false.
Proof.
  induction d; cbn [NilEmpty.string_of_uint]; [reflexivity | ..];
    now apply hasSeparator_cons.
Qed.

Lemma hasSeparator_numeral (n : Z) :
  hasSeparator (argumentText (ArgNumber n)) = false.
Proof.
  unfold argumentText.
  destruct n; cbn [Z.to_int NilEmpty.string_of_int];
    [reflexivity | apply hasSeparator_uint |].
  apply hasSeparator_cons; [reflexivity | apply hasSeparator_uint].
Qed.

(** A line made of a key with no separator in it, a colon, a space and a
    decimal numeral splits into that key and that numeral. *)
Lemma keyValue_numeral (key : string) (n : Z) :
  hasSeparator key = false ->
  keyValue (key +:+ ": " +:+ argumentText (ArgNumber n)) =
  (key, Some (argumentText (ArgNumber n))).
Proof.
  intros Hkey.
  change (key +:+ ": " +:+ argumentText (ArgNumber n))
    with (key +:+ String ":" (String " " (argumentText (ArgNumber n)))).
  rewrite (keyValue_first_separator key " " _ Hkey eq_refl).
  unfold Js.split_colon_space.
  now rewrite (split_colon_space_from_whole _ _ (hasSeparator_numeral n)).
Qed.

Ltac numeral_line key n :=
  unfold parseMessageLine;
  rewrite (keyValue_numeral key n eq_refl);
  cbv beta iota;
  change (oneOf key integerKeys) with (existsb (String.eqb key) integerKeys);
  repeat match goal with
         | |- context [if ?b then _ else _] =>
             let v := eval vm_compute in b in
             change b with v; cbv beta iota
         end;
  unfold Num.parseInt, Num.parseFloat, Num.toString;
  rewrite ?parseInt_string_of_Z, ?parseFloat_string_of_Z;
  reflexivity.

(** X10: an integer printed into a line is read back as that integer.
    For every integer [n] of magnitude at most [2 ^ 53], the range in
    which a number of the source holds an integer exactly and prints it
    as its decimal numeral, with that numeral as a command carries it:
    the line made of a key of the integer arm of the table, a colon, a
    space and the numeral is coerced to the lower-cased key with the
    value [n]; the lines [song], [songid] and [bitrate] give [n] under
    [songPos], [songId] and [bitRate], and the lines [Time] and
    [elapsed], read by [parseFloat], give [n] under [duration] and
    [elapsed]. *)
Theorem numeral_line_round_trip (this : MpdClient) (n : Z) :
  Z.abs n <= 2 ^ 53 ->
  let text := argumentText (ArgNumber n) in
  Forall (fun key =>
            parseMessageLine this (key +:+ ": " +:+ text) =
            Ok {[ Js.toLowerCase key := VNumber (Int n) ]}) integerKeys /\
  parseMessageLine this ("song" +:+ ": " +:+ text)
    = Ok {[ "songPos" := VNumber (Int n) ]} /\
  parseMessageLine this ("songid" +:+ ": " +:+ text)
    = Ok {[ "songId" := VNumber (Int n) ]} /\
  parseMessageLine this ("bitrate" +:+ ": " +:+ text)
    = Ok {[ "bitRate" := VNumber (Int n) ]} /\
  parseMessageLine this ("Time" +:+ ": " +:+ text)
    = Ok {[ "duration" := VNumber (Int n) ]} /\
  parseMessageLine this ("elapsed" +:+ ": " +:+ text)
    = Ok {[ "elapsed" := VNumber (Int n) ]}.
Proof.
  intros _. cbv zeta. split.
  - unfold integerKeys. repeat constructor.
    + numeral_line "Id" n.
    + numeral_line "Pos" n.
    + numeral_line "volume" n.
    + numeral_line "repeat" n.
    + numeral_line "random" n.
    + numeral_line "single" n.
    + numeral_line "consume" n.
    + numeral_line "playlist" n.
  - repeat split.
    + numeral_line "song" n.
    + numeral_line "songid" n.
    + numeral_line "bitrate" n.
    + numeral_line "Time" n.
    + numeral_line "elapsed" n.
Qed.

Lemma numeral_line_round_trip_witness :
  Z.abs (-9007199254740992) <= 2 ^ 53 /\
  parseMessageLine aClient
    ("song" +:+ ": " +:+ argumentText (ArgNumber (-9007199254740992)))
  = Ok {[ "songPos" := VNumber (Int (-9007199254740992)) ]}.
Proof.
  assert (H : Z.abs (-9007199254740992) <= 2 ^ 53) by (vm_compute; discriminate).
  split; [exact H |].
  exact (proj1 (proj2 (numeral_line_round_trip aClient _ H))).
Defined.

(** ** [localeCompare] *)

Lemma localeCompare_with_prefix
  (hostCompare : ascii -> ascii -> string -> Z) (p a b locale : string) :
  Util.localeCompare_with hostCompare (p +:+ a) (p +:+ b) locale =
  Util.localeCompare_with hostCompare a b locale.
Proof.
  induction p as [| c p IH]; [reflexivity |].
  rewrite !append_cons. cbn [Util.localeCompare_with].
  now rewrite Ascii.eqb_refl.
Qed.

(** X11: [localeCompare] looks only at what follows the common prefix of
    its arguments, and answers [0] for a string against itself. *)
Theorem localeCompare_common_prefix
  (hostCompare : ascii -> ascii -> string -> Z) (p a b : string) :
  Util.localeCompare hostCompare (p +:+ a) (p +:+ b) =
    Util.localeCompare hostCompare a b /\
  Util.localeCompare hostCompare p p = 0.
Proof.
  unfold Util.localeCompare. split.
  - apply localeCompare_with_prefix.
  - rewrite <- (append_empty_r p) at 1 2.
    rewrite localeCompare_with_prefix. reflexivity.
Qed.

Lemma len_append (a b : string) : Js.len (a +:+ b) = Js.len a + Js.len b.
Proof.
  unfold Js.len. induction a as [| c a IH]; [reflexivity |].
  rewrite append_cons. cbn [String.length]. lia.
Qed.

(** X12: a string and a longer string that begins with it are ordered by
    length: the answer is the difference of the lengths, negative for the
    shorter one first and positive the other way round. *)
Theorem localeCompare_extension
  (hostCompare : ascii -> ascii -> string -> Z) (a b : string) :
  Util.localeCompare hostCompare a (a +:+ b) = - Js.len b /\
  Util.localeCompare hostCompare (a +:+ b) a = Js.len b.
Proof.
  unfold Util.localeCompare. split.
  - rewrite <- (append_empty_r a) at 1.
    rewrite localeCompare_with_prefix.
    destruct b; cbn [Util.localeCompare_with]; unfold Js.len; cbn; lia.
  - rewrite <- (append_empty_r a) at 2.
    rewrite localeCompare_with_prefix.
    destruct b; cbn [Util.localeCompare_with]; unfold Js.len; cbn; lia.
Qed.

(** X13: the classes decide first.  When the first characters in which
    two strings differ belong to different classes of [regExp], the
    answer is the difference of the class indexes, whatever the
    characters are: signs and white space (0) come before digits (1),
    digits before Latin letters (2), and those before every other
    character (3). *)
Theorem localeCompare_classes
  (hostCompare : ascii -> ascii -> string -> Z) (p : string)
  (c d : ascii) (s t : string) :
  Util.regExpIndex c <> Util.regExpIndex d ->
  Util.localeCompare hostCompare (p +:+ String c s) (p +:+ String d t) =
  Util.regExpIndex c - Util.regExpIndex d.
Proof.
  intros Hclass. unfold Util.localeCompare.
  rewrite localeCompare_with_prefix. cbn [Util.localeCompare_with].
  destruct (Ascii.eqb_spec c d) as [-> | _]; [contradiction |].
  unfold Util.compareChars. apply Z.eqb_neq in Hclass. now rewrite Hclass.
Qed.

Lemma localeCompare_classes_witness :
  Util.localeCompare Host.compareByCode ("track" +:+ String "-" "b")
    ("track" +:+ String "1" "a") = 0 - 1.
Proof.
  apply (localeCompare_classes Host.compareByCode "track" "-" "1" "b" "a").
  vm_compute. discriminate.
Defined.

Lemma upper_lower_compare
  (hostCompare : ascii -> ascii -> string -> Z) (c : ascii)
  (locale : string) :
  Js.between 65 90 c = true ->
  Ascii.eqb c (Js.lowerChar c) = false /\
  Ascii.eqb (Js.lowerChar c) c = false /\
  Util.compareChars hostCompare c (Js.lowerChar c) locale = 1 /\
  Util.compareChars hostCompare (Js.lowerChar c) c locale = 1.
Proof.
  destruct c as [[] [] [] [] [] [] [] []]; intros H;
    try discriminate H; repeat split; reflexivity.
Qed.

(** X14: [localeCompare] is not antisymmetric on letter case.  When two
    strings first differ in a capital letter [A]..[Z] against the same
    letter in lower case, the answer is [1] in both directions: each
    string is placed after the other. *)
Theorem localeCompare_case_both_after
  (hostCompare : ascii -> ascii -> string -> Z) (p : string) (c : ascii)
  (s t : string) :
  Js.between 65 90 c = true ->
  Util.localeCompare hostCompare
    (p +:+ String c s) (p +:+ String (Js.lowerChar c) t) = 1 /\
  Util.localeCompare hostCompare
    (p +:+ String (Js.lowerChar c) t) (p +:+ String c s) = 1.
Proof.
  intros Hc. unfold Util.localeCompare.
  destruct (upper_lower_compare hostCompare c "zh" Hc)
    as (E1 & E2 & H1 & H2).
  rewrite !localeCompare_with_prefix. cbn [Util.localeCompare_with].
  now rewrite E1, E2, H1, H2.
Qed.

Lemma localeCompare_case_both_after_witness :
  Util.localeCompare Host.compareByCode
    ("My " +:+ String "S" "ong") ("My " +:+ String (Js.lowerChar "S") "ong")
    = 1 /\
  Util.localeCompare Host.compareByCode
    ("My " +:+ String (Js.lowerChar "S") "ong") ("My " +:+ String "S" "ong")
    = 1.
Proof.
  apply (localeCompare_case_both_after Host.compareByCode "My " "S" "ong" "ong").
  reflexivity.
Defined.

Lemma code_inj (a b : ascii) : Js.code a = Js.code b -> a = b.
Proof.
  unfold Js.code. intros H. apply N2Z.inj in H.
  rewrite <- (ascii_N_embedding a), <- (ascii_N_embedding b). now rewrite H.
Qed.

Lemma digitOf_code (c : ascii) :
  Js.isDigit c = true -> Util.digitOf c = Js.code c - 48.
Proof. intros H. unfold Util.digitOf, Num.decimalDigit. now rewrite H. Qed.

Lemma regExpIndex_digit (c : ascii) :
  Util.regExpIndex c = 1 -> Js.isDigit c = true.
Proof.
  unfold Util.regExpIndex.
  destruct (Util.isPunctuation c); [discriminate |].
  destruct (Js.isDigit c); [reflexivity |].
  destruct (Js.isLatinLetter c); [discriminate |].
  destruct (Util.isDot c); discriminate.
Qed.

(** Two different characters compare as [0] only in the last class, by
    the answer of the host. *)
Lemma compareChars_zero
  (hostCompare : ascii -> ascii -> string -> Z) (c d : ascii)
  (locale : string) :
  c <> d ->
  Util.compareChars hostCompare c d locale = 0 ->
  Util.regExpIndex c = 3 /\ Util.regExpIndex d = 3 /\
  hostCompare c d locale = 0.
Proof.
  intros Hne. unfold Util.compareChars.
  destruct (Z.eqb_spec (Util.regExpIndex c) (Util.regExpIndex d)) as [E | E];
    cbn [negb]; [| lia].
  destruct (Z.eqb_spec (Util.regExpIndex c) 1) as [E1 | _].
  { rewrite (digitOf_code c (regExpIndex_digit c E1)).
    rewrite E in E1. rewrite (digitOf_code d (regExpIndex_digit d E1)).
    intros H. exfalso. apply Hne, code_inj. lia. }
  destruct (Util.regExpIndex c =? 2).
  { destruct (Js.code (Js.lowerChar c) <? Js.code (Js.lowerChar d));
      discriminate. }
  destruct (Z.eqb_spec (Util.regExpIndex c) 3) as [E3 | _].
  { intros H. split; [exact E3 |]. split; [now rewrite <- E | exact H]. }
  destruct (Js.code c <? Js.code d); discriminate.
Qed.

(** X15: when [localeCompare] answers [0].  Whatever the collation of the
    host, the answer is [0] exactly when the two strings are equal, or
    when the first position at which they differ holds two characters of
    the last class of [regExp] (no white space or listed sign, no digit,
    no Latin letter) for which the host answers [0]; what follows that
    position, the lengths included, is then not looked at. *)
Theorem localeCompare_zero_iff
  (hostCompare : ascii -> ascii -> string -> Z) (aStr bStr : string) :
  Util.localeCompare hostCompare aStr bStr = 0 <->
  aStr = bStr \/
  exists (p : string) (c d : ascii) (s t : string),
    aStr = p +:+ String c s /\ bStr = p +:+ String d t /\
    c <> d /\
    Util.regExpIndex c = 3 /\ Util.regExpIndex d = 3 /\
    hostCompare c d "zh" = 0.
Proof.
  unfold Util.localeCompare. split.
  - revert bStr.
    induction aStr as [| c aStr IH]; intros [| d bStr];
      cbn [Util.localeCompare_with]; unfold Js.len; cbn [String.length].
    + now left.
    + lia.
    + lia.
    + destruct (Ascii.eqb_spec c d) as [-> | Hne].
      * intros H. destruct (IH bStr H) as [-> | (p & c' & d' & s & t & H')].
        -- now left.
        -- destruct H' as (-> & -> & Hrest). right.
           exists (String d p), c', d', s, t. now rewrite !append_cons.
      * intros H. right.
        destruct (compareChars_zero hostCompare c d "zh" Hne H)
          as (Hc & Hd & Hhost).
        exists EmptyString, c, d, aStr, bStr. repeat split; assumption.
  - intros [-> | (p & c & d & s & t & -> & -> & Hne & Hc & Hd & Hhost)].
    + induction bStr as [| c bStr IH]; [reflexivity |].
      cbn [Util.localeCompare_with]. now rewrite Ascii.eqb_refl.
    + rewrite localeCompare_with_prefix. cbn [Util.localeCompare_with].
      destruct (Ascii.eqb_spec c d) as [E | _]; [contradiction |].
      unfold Util.compareChars. rewrite Hc, Hd. exact Hhost.
Qed.

(** ** What a reply is, and what a record can hold *)

(** X16: the verb alone decides the kind of the reply.  A call that
    returns gives an array of records for [playlistinfo] and [lsinfo]
    and a single record for every other verb, whatever the server sent:
    the unchecked casts of [getPlaylist], [getLibrary], [getStatus] and
    [getCurrentSong] never meet the other kind. *)
Theorem reply_kind_follows_verb (this : MpdClient) (net : Network)
  (command : string) (argument : option Argument) (reply : Reply) :
  fst (run (sendCommand this net command argument)) = Ok reply ->
  match reply with
  | ReplyList _ =>
      String.eqb command "playlistinfo" || String.eqb command "lsinfo" = true
  | ReplyObject _ =>
      String.eqb command "playlistinfo" || String.eqb command "lsinfo" = false
  end.
Proof.
  destruct net as [| lines].
  - discriminate.
  - rewrite sendCommand_run.
    destruct (readLines lines [] _) as [[result | e] tr]; cbn [fst];
      [| discriminate].
    unfold parseReply.
    destruct (String.eqb command "playlistinfo" || String.eqb command "lsinfo").
    + destruct (parseMessageList this result); intros [= <-]. reflexivity.
    + destruct (parseMessageObject this result); intros [= <-]. reflexivity.
Qed.

Lemma reply_kind_follows_verb_witness :
  String.eqb "lsinfo" "playlistinfo" || String.eqb "lsinfo" "lsinfo" = true.
Proof.
  exact (reply_kind_follows_verb aClient (Accepted ["file: a"; "OK"]) "lsinfo"
           None (ReplyList [ {[ "file" := VString "a" ]} ]) eq_refl).
Defined.

Lemma lowerChar_not_capital_D (c : ascii) : Js.lowerChar c <> "D"%char.
Proof. destruct c as [[] [] [] [] [] [] [] []]; discriminate. Qed.

Lemma toLowerCase_not_isDir (s : string) : Js.toLowerCase s <> "isDir".
Proof.
  destruct s as [| a [| b [| c s]]]; try discriminate.
  cbn [Js.toLowerCase]. intros H. injection H as _ _ H _.
  now apply lowerChar_not_capital_D in H.
Qed.

Lemma lookup_setProp_ne (k j : string) (v : Value) (o : MpdMessage) :
  k <> j -> setProp k v o !! j = o !! j.
Proof.
  intros Hne. unfold setProp.
  destruct (String.eqb k "__proto__"); [reflexivity |].
  now apply lookup_insert_ne.
Qed.

(** X17: only a [directory] line marks a record as a directory.  A line
    that parses gives the field [isDir], with the value 1, exactly when
    its raw key is [directory]; no other key, lower-cased or renamed by
    the table, reaches that field (a line [isDir: 1] sets [isdir]). *)
Theorem isDir_only_from_directory (this : MpdClient) (line : string)
  (m : MpdMessage) :
  parseMessageLine this line = Ok m ->
  (fst (keyValue line) = "directory" /\
   m !! "isDir" = Some (VNumber (Int 1))) \/
  (fst (keyValue line) <> "directory" /\ m !! "isDir" = None).
Proof.
  unfold parseMessageLine. destruct (keyValue line) as [key value].
  cbn [fst].
  destruct (String.eqb_spec key "directory") as [-> | Hkey].
  - cbn. intros [= <-]. left. split; [reflexivity |].
    unfold setProp. cbn [String.eqb Ascii.eqb Bool.eqb andb].
    apply lookup_insert_eq.
  - intros H. right. split; [exact Hkey |]. revert H.
    repeat match goal with
           | |- context [if ?b then _ else _] => destruct b
           end;
      try (destruct value; [| discriminate]);
      intros [= <-];
      rewrite ?lookup_setProp_ne
        by first [ apply toLowerCase_not_isDir | discriminate ];
      apply lookup_empty.
Qed.

Lemma isDir_only_from_directory_witness :
  (fst (keyValue "isDir: 1") = "directory" /\
   ({[ "isdir" := VString "1" ]} : MpdMessage) !! "isDir"
   = Some (VNumber (Int 1))) \/
  (fst (keyValue "isDir: 1") <> "directory" /\
   ({[ "isdir" := VString "1" ]} : MpdMessage) !! "isDir" = None).
Proof.
  exact (isDir_only_from_directory aClient "isDir: 1"
           {[ "isdir" := VString "1" ]} eq_refl).
Defined.

(** ** [firstUpperCase] *)

Lemma string_pair_ind (P : string -> Prop) :
  P EmptyString ->
  (forall c, P (String c EmptyString)) ->
  (forall c d s, P s -> P (String d s) -> P (String c (String d s))) ->
  forall s, P s.
Proof.
  intros H0 H1 H2 s.
  assert (H : P s /\ forall c, P (String c s)).
  { induction s as [| d s [IHs IHc]]; [auto |].
    split; [apply IHc |]. intros c. apply H2; auto. }
  apply H.
Qed.

Lemma lowerChar_idem (c : ascii) :
  Js.lowerChar (Js.lowerChar c) = Js.lowerChar c.
Proof. destruct c as [[] [] [] [] [] [] [] []]; reflexivity. Qed.

Lemma toLowerCase_idem (s : string) :
  Js.toLowerCase (Js.toLowerCase s) = Js.toLowerCase s.
Proof.
  induction s as [| c s IH]; [reflexivity |].
  cbn [Js.toLowerCase]. now rewrite lowerChar_idem, IH.
Qed.

Lemma lowerChar_upperLetter (c : ascii) :
  Js.lowerChar (upperLetter c) = Js.lowerChar c.
Proof. destruct c as [[] [] [] [] [] [] [] []]; reflexivity. Qed.

(** The replacement changes letters into their capitals only. *)
Lemma toLowerCase_replaceInitials (s : string) :
  forall atStart,
    Js.toLowerCase (replaceInitials atStart s) = Js.toLowerCase s.
Proof.
  induction s as [| c | c d s IHs IHd] using string_pair_ind; intros atStart.
  - reflexivity.
  - cbn [replaceInitials].
    destruct (Ascii.eqb c " "); [reflexivity |].
    destruct (atStart && isLowerLetter c); cbn [Js.toLowerCase replaceInitials];
      now rewrite ?lowerChar_upperLetter.
  - change (replaceInitials atStart (String c (String d s)))
      with (if Ascii.eqb c " " then
              if isLowerLetter d
              then String c (String (upperLetter d) (replaceInitials false s))
              else String c (replaceInitials false (String d s))
            else if atStart && isLowerLetter c
            then String (upperLetter c) (replaceInitials false (String d s))
            else String c (replaceInitials false (String d s))).
    destruct (Ascii.eqb c " ").
    + destruct (isLowerLetter d).
      * cbn [Js.toLowerCase]. now rewrite lowerChar_upperLetter, IHs.
      * change (Js.toLowerCase (String c (replaceInitials false (String d s))))
          with (String (Js.lowerChar c)
                  (Js.toLowerCase (replaceInitials false (String d s)))).
        now rewrite IHd.
    + destruct (atStart && isLowerLetter c).
      * change (Js.toLowerCase
                  (String (upperLetter c) (replaceInitials false (String d s))))
          with (String (Js.lowerChar (upperLetter c))
                  (Js.toLowerCase (replaceInitials false (String d s)))).
        now rewrite IHd, lowerChar_upperLetter.
      * change (Js.toLowerCase (String c (replaceInitials false (String d s))))
          with (String (Js.lowerChar c)
                  (Js.toLowerCase (replaceInitials false (String d s)))).
        now rewrite IHd.
Qed.

(** X18: [firstUpperCase] is idempotent: applying it to its own result
    changes nothing. *)
Theorem firstUpperCase_idempotent (text : string) :
  firstUpperCase (firstUpperCase text) = firstUpperCase text.
Proof.
  unfold firstUpperCase.
  now rewrite toLowerCase_replaceInitials, toLowerCase_idem.
Qed.

Example firstUpperCase_words :
  firstUpperCase "hELLO  wORLD a-b c" = "Hello  World A-b C".
Proof. reflexivity. Qed.

(** ** [swapArray] *)

(** X19: inside the array [swapArray] exchanges two elements.  For
    positions [i] and [j] of the array, the result is the array with the
    element of [j] at [i] and the element of [i] at [j], of the same
    length, and a second call with the same positions gives the array
    back. *)
Theorem swapArray_exchanges {A : Type} (undefined : A) (arr : list A)
  (i j : nat) (x y : A) :
  arr !! i = Some x ->
  arr !! j = Some y ->
  swapArray undefined arr (Z.of_nat i) (Z.of_nat j)
    = <[i := y]> (<[j := x]> arr) /\
  length (swapArray undefined arr (Z.of_nat i) (Z.of_nat j)) = length arr /\
  swapArray undefined (swapArray undefined arr (Z.of_nat i) (Z.of_nat j))
    (Z.of_nat i) (Z.of_nat j) = arr.
Proof.
  assert (Hswap : forall (l : list A) (a b : A),
             l !! i = Some a -> l !! j = Some b ->
             swapArray undefined l (Z.of_nat i) (Z.of_nat j)
             = <[i := b]> (<[j := a]> l)).
  { intros l a b Hi Hj.
    pose proof (lookup_lt_Some _ _ _ Hi) as Hli.
    pose proof (lookup_lt_Some _ _ _ Hj) as Hlj.
    unfold swapArray, getIndex, splice.
    replace (Z.of_nat i <? 0) with false by lia.
    replace (Z.of_nat j <? 0) with false by lia.
    rewrite Nat2Z.id, (nth_lookup_Some _ _ _ _ Hi).
    replace (Z.min (Z.of_nat j) (Z.of_nat (length l))) with (Z.of_nat j)
      by lia.
    replace (Z.min (Z.max 1 0) (Z.of_nat (length l) - Z.of_nat j)) with 1
      by lia.
    rewrite Nat2Z.id. change (Z.to_nat 1) with 1%nat.
    rewrite (drop_S _ _ _ Hj). cbn [take nth].
    replace (j + 1)%nat with (S j) by lia.
    rewrite <- (insert_take_drop l j a Hlj).
    unfold setIndex. rewrite length_insert.
    replace (Z.of_nat i <? 0) with false by lia.
    replace (Z.of_nat i <? Z.of_nat (length l)) with true by lia.
    now rewrite Nat2Z.id. }
  intros Hi Hj.
  pose proof (lookup_lt_Some _ _ _ Hi) as Hli.
  pose proof (lookup_lt_Some _ _ _ Hj) as Hlj.
  rewrite (Hswap arr x y Hi Hj). split; [reflexivity |].
  split; [now rewrite !length_insert |].
  destruct (decide (i = j)) as [-> | Hne].
  - assert (x = y) as -> by congruence.
    rewrite (Hswap _ y y);
      rewrite ?list_insert_insert_eq, ?list_lookup_insert_eq,
        ?length_insert; try lia; try reflexivity.
    now rewrite list_insert_id.
  - rewrite (Hswap _ y x).
    + apply list_eq. intros k.
      destruct (decide (k = i)) as [-> | Hki].
      { rewrite list_lookup_insert_eq by (rewrite !length_insert; lia).
        now rewrite Hi. }
      rewrite list_lookup_insert_ne by done.
      destruct (decide (k = j)) as [-> | Hkj].
      { rewrite list_lookup_insert_eq by (rewrite !length_insert; lia).
        now rewrite Hj. }
      now rewrite !list_lookup_insert_ne by done.
    + apply list_lookup_insert_eq. now rewrite length_insert.
    + rewrite list_lookup_insert_ne by done.
      now apply list_lookup_insert_eq.
Qed.

Lemma swapArray_exchanges_witness :
  swapArray 0 [10; 20; 30; 40] (Z.of_nat 0) (Z.of_nat 2) = [30; 20; 10; 40].
Proof.
  exact (proj1 (swapArray_exchanges 0 [10; 20; 30; 40] 0 2 10 30
                  eq_refl eq_refl)).
Defined.

(** X20: a second position behind the end does not fail and loses an
    element.  When [index1] is a position of the array and [index2] is
    not below its length, [splice] removes nothing and appends the element
    of [index1], and the assignment then writes [undefined] at [index1]:
    the array is one longer and the element now stands at its end. *)
Theorem swapArray_beyond_end {A : Type} (undefined : A) (arr : list A)
  (i : nat) (x : A) (index2 : Z) :
  arr !! i = Some x ->
  Z.of_nat (length arr) <= index2 ->
  swapArray undefined arr (Z.of_nat i) index2
  = <[i := undefined]> (arr ++ [x])%list.
Proof.
  intros Hi Hj. pose proof (lookup_lt_Some _ _ _ Hi) as Hli.
  unfold swapArray, getIndex, splice.
  replace (Z.of_nat i <? 0) with false by lia.
  replace (index2 <? 0) with false by lia.
  rewrite Nat2Z.id, (nth_lookup_Some _ _ _ _ Hi).
  replace (Z.min index2 (Z.of_nat (length arr))) with (Z.of_nat (length arr))
    by lia.
  replace (Z.min (Z.max 1 0) (Z.of_nat (length arr) - Z.of_nat (length arr)))
    with 0 by lia.
  rewrite Nat2Z.id. change (Z.to_nat 0) with 0%nat.
  rewrite Nat.add_0_r, take_0, firstn_all, drop_all. cbn [nth].
  unfold setIndex. rewrite length_app. cbn [length].
  replace (Z.of_nat i <? 0) with false by lia.
  destruct (Z.ltb_spec (Z.of_nat i) (Z.of_nat (length arr + 1))); [| lia].
  now rewrite Nat2Z.id.
Qed.

Lemma swapArray_beyond_end_witness :
  swapArray 0 [10; 20; 30] (Z.of_nat 1) 7 = [10; 0; 30; 20].
Proof.
  apply (swapArray_beyond_end 0 [10; 20; 30] 1 20 7).
  - reflexivity.
  - vm_compute. discriminate.
Defined.

(** ** [truncate] *)

Lemma truncate_loop_some (text : string) (length : Z) (count : nat) (m : Z)
  (cut : string) :
  truncate_loop text length count m = Some cut ->
  exists i,
    m <= i < m + Z.of_nat count /\
    cut = Js.substring text 0 i +:+ "..." /\
    length <= replacedLength (Js.substring text 0 i) /\
    forall k, m <= k < i -> replacedLength (Js.substring text 0 k) < length.
Proof.
  revert m. induction count as [| count IH]; intros m; [discriminate |].
  cbn [truncate_loop]. cbv zeta.
  destruct (Z.geb_spec (replacedLength (Js.substring text 0 m)) length)
    as [Hge | Hlt].
  - intros [= <-]. exists m. repeat split; try lia.
  - intros H. destruct (IH _ H) as (i & Hi & Hcut & Hwide & Hmin).
    exists i. repeat split; try lia; try assumption.
    intros k Hk. destruct (Z.eq_dec k m) as [-> | Hne]; [lia |].
    apply Hmin. lia.
Qed.

(** X21: what [truncate] returns.  A text whose replaced length does not
    exceed [length] is returned as it is.  Otherwise the result is either
    the text itself, or the prefix of [i] characters followed by three
    dots, where [i] is the first number from [floor(length / 2)] on, and
    below the length of the text, whose prefix has a replaced length of
    at least [length].  The replaced length counts two for every
    character outside the class of [cnRegex] and one for the others. *)
Theorem truncate_cut (text : string) (length : Z) :
  (replacedLength text <= length -> truncate text length = text) /\
  (truncate text length = text \/
   exists i,
     length / 2 <= i < Js.len text /\
     truncate text length = Js.substring text 0 i +:+ "..." /\
     length <= replacedLength (Js.substring text 0 i) /\
     forall k, length / 2 <= k < i ->
               replacedLength (Js.substring text 0 k) < length).
Proof.
  unfold truncate. split.
  - intros Hle. destruct (Z.gtb_spec (replacedLength text) length);
      [lia | reflexivity].
  - destruct (replacedLength text >? length); [| now left].
    cbv zeta.
    destruct (truncate_loop text length _ (length / 2)) as [cut |] eqn:E;
      [| now left].
    right. destruct (truncate_loop_some _ _ _ _ _ E)
      as (i & Hi & Hcut & Hwide & Hmin).
    exists i. repeat split; try assumption; lia.
Qed.

Example truncate_examples :
  truncate "HELLO WORLD" 5 = "HELLO..." /\
  truncate "abc" 2 = "a..." /\
  truncate "0a" 2 = "0a".
Proof. repeat split. Qed.

(** ** [mergeArrays] *)

Lemma findIndex_some {A : Type} (p : A -> bool) (l : list A) (i : nat) :
  findIndex p l = Some i -> exists x, l !! i = Some x /\ p x = true.
Proof.
  revert i. induction l as [| a l IH]; intros i; [discriminate |].
  cbn [findIndex]. destruct (p a) eqn:Hp.
  - intros [= <-]. eauto.
  - destruct (findIndex p l) as [i' |]; [| discriminate].
    intros [= <-]. destruct (IH i' eq_refl) as (x & Hx & Hpx). eauto.
Qed.

Lemma mergeArrays_loop_spec {A : Type} (undefined : A) (assign : A -> A -> A)
  (callback : A -> A -> bool) (arr1 : list A) :
  forall clone merged,
  exists extra,
    mergeArrays_loop undefined assign callback arr1 clone merged
    = (merged ++ extra)%list /\
    Forall (fun m => exists a1 a2,
                a1 ∈ arr1 /\ a2 ∈ clone /\ callback a1 a2 = true /\
                m = assign a1 a2) extra /\
    (length extra <= length arr1)%nat /\
    (length extra <= length clone)%nat.
Proof.
  induction arr1 as [| a1 arr1 IH]; intros clone merged.
  - exists []. cbn. rewrite app_nil_r. repeat split; [constructor | lia ..].
  - cbn [mergeArrays_loop].
    destruct (findIndex (callback a1) clone) as [index |] eqn:E.
    + destruct (findIndex_some _ _ _ E) as (x & Hx & Hcb).
      rewrite (nth_lookup_Some _ _ _ _ Hx).
      destruct (IH (delete index clone) (merged ++ [assign a1 x])%list)
        as (extra & -> & Hall & Hlen1 & Hlen2).
      pose proof (lookup_lt_Some _ _ _ Hx) as Hlt.
      rewrite length_delete in Hlen2 by eauto.
      exists (assign a1 x :: extra). rewrite <- app_assoc.
      split; [reflexivity |]. split; [| cbn [length]; lia].
      constructor.
      * exists a1, x. repeat split; try assumption.
        -- apply list_elem_of_here.
        -- eapply list_elem_of_lookup_2; eauto.
      * eapply Forall_impl; [exact Hall |].
        intros m (b1 & b2 & H1 & H2 & H3 & H4).
        exists b1, b2. repeat split; try assumption.
        -- now apply list_elem_of_further.
        -- eapply list_elem_of_delete_inv; eauto.
    + destruct (IH clone merged) as (extra & -> & Hall & Hlen1 & Hlen2).
      exists extra. split; [reflexivity |]. split; [| cbn [length]; lia].
      eapply Forall_impl; [exact Hall |].
      intros m (b1 & b2 & H1 & H2 & H3 & H4).
      exists b1, b2. repeat split; try assumption.
      now apply list_elem_of_further.
Qed.

(** X22: what [mergeArrays] returns.  Every element of the result is
    [Object.assign(a1, a2)] for an element [a1] of the first array and an
    element [a2] of the second one that the callback accepts together,
    and the result is no longer than either array: an element of the
    second array is used for one element of the first at most, and an
    element with no partner is left out. *)
Theorem mergeArrays_pairs {A : Type} (undefined : A) (assign : A -> A -> A)
  (arr1 arr2 : list A) (callback : A -> A -> bool) :
  Forall (fun m => exists a1 a2,
              a1 ∈ arr1 /\ a2 ∈ arr2 /\ callback a1 a2 = true /\
              m = assign a1 a2)
    (mergeArrays undefined assign arr1 arr2 callback) /\
  (length (mergeArrays undefined assign arr1 arr2 callback)
   <= length arr1)%nat /\
  (length (mergeArrays undefined assign arr1 arr2 callback)
   <= length arr2)%nat.
Proof.
  unfold mergeArrays.
  destruct (mergeArrays_loop_spec undefined assign callback arr1 arr2 [])
    as (extra & -> & Hall & Hlen1 & Hlen2).
  cbn [app]. auto.
Qed.

Example mergeArrays_by_id :
  mergeArrays 0%nat (fun a b => (a * 100 + b)%nat)
    [1; 2; 3; 1]%nat [3; 1; 1; 5]%nat Nat.eqb = [101; 303; 101]%nat.
Proof. reflexivity. Qed.

(** ** [SmbClient.parseSmbPath] *)

Lemma isSegment_cons (s : string) :
  isSegment s = true ->
  exists c s', s = String c s' /\ Smb.isSlash c = false /\
               forallb (fun c => negb (Smb.isSlash c))
                 (list_ascii_of_string s') = true.
Proof.
  unfold isSegment. destruct s as [| c s']; [discriminate |].
  cbn. intros H. apply andb_prop in H as [Hc Hs].
  exists c, s'. repeat split; [| exact Hs].
  now destruct (Smb.isSlash c).
Qed.

Lemma split_slashes_from_noSlash (s cur : string) :
  forallb (fun c => negb (Smb.isSlash c)) (list_ascii_of_string s) = true ->
  Smb.split_slashes_from false cur s = [cur +:+ s].
Proof.
  revert cur. induction s as [| c s IH]; intros cur Hs.
  - cbn. now rewrite append_empty_r.
  - cbn in Hs. apply andb_prop in Hs as [Hc Hs].
    cbn [Smb.split_slashes_from].
    destruct (Smb.isSlash c); [discriminate |].
    now rewrite (IH _ Hs), append_snoc.
Qed.

Lemma split_slashes_from_segment (s rest cur : string) :
  forallb (fun c => negb (Smb.isSlash c)) (list_ascii_of_string s) = true ->
  Smb.split_slashes_from false cur (s +:+ "/" +:+ rest) =
  (cur +:+ s) :: Smb.split_slashes_from true EmptyString rest.
Proof.
  revert cur. induction s as [| c s IH]; intros cur Hs.
  - change (EmptyString +:+ "/" +:+ rest) with (String "/" rest).
    cbn. now rewrite append_empty_r.
  - cbn in Hs. apply andb_prop in Hs as [Hc Hs].
    rewrite append_cons. cbn [Smb.split_slashes_from].
    destruct (Smb.isSlash c); [discriminate |].
    now rewrite (IH _ Hs), append_snoc.
Qed.

Lemma join_cons (p q : string) (rest : list string) :
  Smb.join (p :: q :: rest) = p +:+ "/" +:+ Smb.join (q :: rest).
Proof. reflexivity. Qed.

Lemma join_starts (segs : list string) :
  Forall (fun s => isSegment s = true) segs -> segs <> [] ->
  exists c s', Smb.join segs = String c s' /\ Smb.isSlash c = false.
Proof.
  intros Hsegs Hne. destruct Hsegs as [| p rest Hp Hrest]; [contradiction |].
  destruct (isSegment_cons p Hp) as (c & s' & -> & Hc & _).
  destruct rest as [| q rest].
  - exists c, s'. now split.
  - rewrite join_cons, append_cons. eauto.
Qed.

Lemma split_slashes_join_cons (rest : list string) :
  forall p,
    Forall (fun s => isSegment s = true) (p :: rest) ->
    Smb.split_slashes (Smb.join (p :: rest)) = p :: rest.
Proof.
  unfold Smb.split_slashes.
  induction rest as [| q rest IH]; intros p Hsegs;
    apply Forall_cons_iff in Hsegs as [Hp Hrest];
    destruct (isSegment_cons p Hp) as (c & s' & Ep & Hc & Hs);
    assert (Hpn : forallb (fun c => negb (Smb.isSlash c))
                    (list_ascii_of_string p) = true)
      by (rewrite Ep; cbn; now rewrite Hc, Hs).
  - cbn [Smb.join]. now rewrite (split_slashes_from_noSlash _ _ Hpn).
  - rewrite join_cons, (split_slashes_from_segment _ _ _ Hpn).
    change (EmptyString +:+ p) with p. f_equal.
    destruct (join_starts (q :: rest) Hrest ltac:(discriminate))
      as (d & t & Ej & Hd).
    assert (Hsame :
              Smb.split_slashes_from true EmptyString (Smb.join (q :: rest)) =
              Smb.split_slashes_from false EmptyString (Smb.join (q :: rest))).
    { rewrite Ej. cbn [Smb.split_slashes_from]. now rewrite Hd. }
    rewrite Hsame. now apply IH.
Qed.

Lemma split_slashes_join (segs : list string) :
  Forall (fun s => isSegment s = true) segs -> segs <> [] ->
  Smb.split_slashes (Smb.join segs) = segs.
Proof.
  intros Hsegs Hne. destruct segs as [| p rest]; [contradiction |].
  now apply split_slashes_join_cons.
Qed.

Lemma stripTrailing_noSlash (s : string) :
  forallb (fun c => negb (Smb.isSlash c)) (list_ascii_of_string s) = true ->
  Smb.stripTrailing s = s.
Proof.
  induction s as [| c s IH]; [reflexivity |].
  cbn. intros H. apply andb_prop in H as [Hc Hs].
  rewrite (IH Hs). destruct s; [| reflexivity].
  now destruct (Smb.isSlash c).
Qed.

Lemma stripTrailing_app (a t : string) :
  Smb.stripTrailing t = t -> t <> EmptyString ->
  Smb.stripTrailing (a +:+ t) = a +:+ t.
Proof.
  intros Ht Hne. induction a as [| c a IH]; [exact Ht |].
  rewrite append_cons. cbn [Smb.stripTrailing]. rewrite IH.
  destruct (a +:+ t) eqn:E; [| reflexivity].
  destruct a; [cbn in E; contradiction | discriminate].
Qed.

Lemma stripSlashes_join (segs : list string) :
  Forall (fun s => isSegment s = true) segs -> segs <> [] ->
  Smb.stripSlashes (Smb.join segs) = Smb.join segs.
Proof.
  intros Hsegs Hne. unfold Smb.stripSlashes.
  destruct (join_starts segs Hsegs Hne) as (c & s' & Ej & Hc).
  assert (Hlead : Smb.stripLeading (Smb.join segs) = Smb.join segs).
  { rewrite Ej. cbn. now rewrite Hc. }
  rewrite Hlead. clear Hlead Ej Hc c s'.
  induction Hsegs as [| p rest Hp Hrest IH]; [contradiction |].
  destruct (isSegment_cons p Hp) as (c & s' & Ep & Hc & Hs).
  assert (Hpn : forallb (fun c => negb (Smb.isSlash c))
                  (list_ascii_of_string p) = true).
  { rewrite Ep. cbn. now rewrite Hc, Hs. }
  destruct rest as [| q rest].
  - cbn [Smb.join]. now apply stripTrailing_noSlash.
  - rewrite join_cons.
    change (p +:+ "/" +:+ Smb.join (q :: rest))
      with (p +:+ String "/" (Smb.join (q :: rest))).
    rewrite <- append_snoc.
    destruct (join_starts (q :: rest) Hrest ltac:(discriminate))
      as (d & t & Ej & Hd).
    apply stripTrailing_app; [apply IH; discriminate | now rewrite Ej].
Qed.

Lemma stripTrailing_slash (s : string) :
  Smb.stripTrailing (s +:+ "/") = Smb.stripTrailing s.
Proof.
  induction s as [| c s IH]; [reflexivity |].
  rewrite append_cons. cbn [Smb.stripTrailing]. now rewrite IH.
Qed.

Lemma stripSlashes_slash (path : string) :
  Smb.stripSlashes (path +:+ "/") = Smb.stripSlashes path.
Proof.
  unfold Smb.stripSlashes.
  induction path as [| c path IH]; [reflexivity |].
  rewrite append_cons. cbn [Smb.stripLeading].
  destruct (Smb.isSlash c); [exact IH |].
  rewrite <- append_cons. apply stripTrailing_slash.
Qed.

(** X23: a path made of its components is parsed back into them.  For a
    share, any number of directories and a file name, each not empty and
    free of slashes, the path that joins them with single slashes gives
    that share, the directories joined with slashes, and that file name;
    a share alone gives an empty directory and file name; and a slash put
    in front of a path or behind it changes nothing. *)
Theorem parseSmbPath_round_trip (share : string) (dirs : list string)
  (file path : string) :
  Forall (fun s => isSegment s = true) (share :: dirs ++ [file]) ->
  Smb.parseSmbPath (Smb.join (share :: dirs ++ [file])) =
    {| Smb.share := share; Smb.dir := Smb.join dirs; Smb.filename := file |} /\
  Smb.parseSmbPath share =
    {| Smb.share := share; Smb.dir := EmptyString;
       Smb.filename := EmptyString |} /\
  Smb.parseSmbPath (String "/" path) = Smb.parseSmbPath path /\
  Smb.parseSmbPath (path +:+ "/") = Smb.parseSmbPath path.
Proof.
  intros Hsegs. split; [| split; [| split]].
  - unfold Smb.parseSmbPath.
    rewrite (stripSlashes_join _ Hsegs ltac:(discriminate)).
    rewrite (split_slashes_join _ Hsegs ltac:(discriminate)).
    cbn [List.hd List.tl]. now rewrite last_last, removelast_last.
  - assert (H1 : Forall (fun s => isSegment s = true) [share]).
    { constructor; [| constructor]. now apply Forall_cons_iff in Hsegs as [? _]. }
    pose proof (stripSlashes_join [share] H1 ltac:(discriminate)) as Hstrip.
    pose proof (split_slashes_join [share] H1 ltac:(discriminate)) as Hsplit.
    cbn [Smb.join] in Hstrip, Hsplit.
    unfold Smb.parseSmbPath. now rewrite Hstrip, Hsplit.
  - reflexivity.
  - unfold Smb.parseSmbPath. now rewrite stripSlashes_slash.
Qed.

Lemma parseSmbPath_round_trip_witness :
  Smb.parseSmbPath (Smb.join ("media" :: ["music"; "rock"] ++ ["a.mp3"])) =
  {| Smb.share := "media"; Smb.dir := "music/rock"; Smb.filename := "a.mp3" |}.
Proof.
  refine (proj1 (parseSmbPath_round_trip "media" ["music"; "rock"] "a.mp3"
                   "" _)).
  repeat constructor.
Defined.

(** ** [SmbClient.listFiles]: the order of the types *)

(** X24: the comparator of [listFiles] settles two files of different
    types both ways.  When the types differ the answers for the two
    orders are [1] and [-1], opposite to each other, and a [DIR] against
    a [FILE] answers [-1]: unlike the comparator of
    [MpdClient.getLibrary], it never places each of two entries before
    the other on account of their types. *)
Theorem compareFiles_types
  (hostCompare : ascii -> ascii -> string -> Z) (a b : Smb.SmbFile) :
  Smb.type a <> Smb.type b ->
  Smb.compareFiles hostCompare a b = - Smb.compareFiles hostCompare b a /\
  (Smb.compareFiles hostCompare a b = 1
   \/ Smb.compareFiles hostCompare a b = -1) /\
  (Smb.type a = "DIR" -> Smb.type b = "FILE" ->
   Smb.compareFiles hostCompare a b = -1).
Proof.
  intros Hne. unfold Smb.compareFiles, Smb.gt.
  rewrite (String.eqb_sym (Smb.type b)).
  destruct (String.eqb_spec (Smb.type a) (Smb.type b)) as [E | _];
    [contradiction |]. cbn [negb].
  rewrite (String.compare_antisym (Smb.type b) (Smb.type a)).
  destruct (String.compare (Smb.type a) (Smb.type b)) eqn:E.
  - apply String.compare_eq_iff in E. contradiction.
  - cbn. repeat split; auto.
  - cbn. repeat split; auto. intros Ha Hb. rewrite Ha, Hb in E. discriminate.
Qed.

Lemma compareFiles_types_witness :
  Smb.compareFiles Host.compareByCode
    {| Smb.type := "FILE"; Smb.name := "a"; Smb.comment := None;
       Smb.size := Some (Int 1); Smb.ctime := None |}
    {| Smb.type := "DIR"; Smb.name := "b"; Smb.comment := None;
       Smb.size := Some (Int 0); Smb.ctime := None |} = - -1.
Proof.
  refine (proj1 (compareFiles_types Host.compareByCode
                   {| Smb.type := "FILE"; Smb.name := "a";
                      Smb.comment := None; Smb.size := Some (Int 1);
                      Smb.ctime := None |}
                   {| Smb.type := "DIR"; Smb.name := "b";
                      Smb.comment := None; Smb.size := Some (Int 0);
                      Smb.ctime := None |} _)).
  discriminate.
Defined.
